(** * Satellite tracker: orbital state and proximity detection

    A shallow embedding of [satelite.py] and the properties of its
    orbital-state engine: satellite generation, the per-tick position
    update, the pairwise collision scan and the figure callback that
    drives them.

    Numbers.  The program computes with IEEE doubles; the embedding takes
    the exact real number behind every float, so [np.sin], [np.cos],
    [np.linalg.norm] and [%] are the functions on [R].  Every statement
    below is therefore one of exact real arithmetic.

    Effects.  Python statements run in the monad [M S]: a state of type [S]
    is threaded through, and a statement either returns a value or raises;
    the state survives a raise, as a mutated global does in Python. *)

From Stdlib Require Import String DecimalString DecimalZ DecimalPos.
From Stdlib Require Import Reals Lra Lia ZArith List Sorted.
Import ListNotations.

Local Open Scope string_scope.
Local Open Scope list_scope.
Local Open Scope R_scope.

(** ** Python statements with state and exceptions *)

Inductive exn : Type :=
| KeyError (key : string)
| IndexError.

Inductive result (A : Type) : Type :=
| Ok (a : A)
| Raise (e : exn).
Arguments Ok {A} a.
Arguments Raise {A} e.

Definition M (S A : Type) : Type := S -> result A * S.

Definition ret {S A} (a : A) : M S A := fun s => (Ok a, s).

Definition bind {S A B} (m : M S A) (k : A -> M S B) : M S B :=
  fun s =>
    match m s with
    | (Ok a, s') => k a s'
    | (Raise e, s') => (Raise e, s')
    end.

Definition raise {S A} (e : exn) : M S A := fun s => (Raise e, s).
Definition get {S} : M S S := fun s => (Ok s, s).
Definition modify {S} (f : S -> S) : M S unit := fun s => (Ok tt, f s).

Notation "x <- m ;; k" := (bind m (fun x => k))
  (at level 61, m at next level, right associativity).
Notation "m ;;; k" := (bind m (fun _ => k))
  (at level 61, right associativity).

(** A [for] loop that carries its local variables in [acc]. *)
Fixpoint for_each {S A B} (xs : list A) (body : B -> A -> M S B) (acc : B)
  : M S B :=
  match xs with
  | [] => ret acc
  | x :: xs' => acc' <- body acc x ;; for_each xs' body acc'
  end.

(** [range(num)] for a Python integer: empty when [num <= 0]. *)
Definition range (num : Z) : list Z :=
  map Z.of_nat (seq 0 (Z.to_nat num)).

(** [str(n)] for an integer. *)
Definition str (n : Z) : string := NilZero.string_of_int (Z.to_int n).

(** [a % b] on floats is the floored remainder [a - floor(a / b) * b]. *)
Definition py_mod (a b : R) : R := a - IZR (Int_part (a / b)) * b.

(** ** The numpy and random functions the program calls *)

Module np.
Definition pi : R := PI.
Definition radians (deg : R) : R := deg * (PI / 180).
Definition sin : R -> R := Rtrigo_def.sin.
Definition cos : R -> R := Rtrigo_def.cos.
(** [np.linalg.norm] of a 3-tuple: the Euclidean norm. *)
Definition linalg_norm (v : R * R * R) : R :=
  let '(a, b, c) := v in sqrt (a * a + b * b + c * c).
End np.

(** The generator is a stream of the values [random.random()] will
    return, and the position reached in it. *)
Record rng : Type := { draws : nat -> R; cursor : nat }.

(** [random.random()] returns a float of [[0, 1)]. *)
Definition rng_ok (g : rng) : Prop := forall k, 0 <= draws g k < 1.

Module random.
Definition random : M rng R :=
  fun g => (Ok (draws g (cursor g)),
            {| draws := draws g; cursor := S (cursor g) |}).
(** [uniform(a, b)] is [a + (b - a) * random()]. *)
Definition uniform (a b : R) : M rng R :=
  u <- random ;; ret (a + (b - a) * u).
End random.

(** ** Constants *)

Definition NUM_LEO : Z := 50.
Definition NUM_GEO : Z := 50.
Definition EARTH_RADIUS : R := 6371.
Definition LEO_ALTITUDE : R := 2000.
Definition GEO_ALTITUDE : R := 35786.
Definition INITIAL_THRESHOLD : R := 100.

(** ** Satellites *)

(** The dict the program keeps per satellite, one field per key. *)
Record satellite : Type := {
  sat_id : string;
  sat_type : string;
  sat_theta : R;
  sat_phi : R;
  sat_r : R;
  sat_x : R;
  sat_y : R;
  sat_z : R
}.

(** Item assignment [s[key] = v] for the keys the program assigns. *)
Definition set_phi (s : satellite) (v : R) : satellite :=
  {| sat_id := sat_id s; sat_type := sat_type s; sat_theta := sat_theta s;
     sat_phi := v; sat_r := sat_r s;
     sat_x := sat_x s; sat_y := sat_y s; sat_z := sat_z s |}.
Definition set_x (s : satellite) (v : R) : satellite :=
  {| sat_id := sat_id s; sat_type := sat_type s; sat_theta := sat_theta s;
     sat_phi := sat_phi s; sat_r := sat_r s;
     sat_x := v; sat_y := sat_y s; sat_z := sat_z s |}.
Definition set_y (s : satellite) (v : R) : satellite :=
  {| sat_id := sat_id s; sat_type := sat_type s; sat_theta := sat_theta s;
     sat_phi := sat_phi s; sat_r := sat_r s;
     sat_x := sat_x s; sat_y := v; sat_z := sat_z s |}.
Definition set_z (s : satellite) (v : R) : satellite :=
  {| sat_id := sat_id s; sat_type := sat_type s; sat_theta := sat_theta s;
     sat_phi := sat_phi s; sat_r := sat_r s;
     sat_x := sat_x s; sat_y := sat_y s; sat_z := v |}.

(** [generate_satellites(num, altitude, label_prefix)]: the loop appends one
    dict per index of [range(num)], drawing theta first and phi second. *)
Definition generate_satellites (num : Z) (altitude : R) (label_prefix : string)
  : M rng (list satellite) :=
  for_each (range num)
    (fun sats i =>
       d1 <- random.uniform 0 180 ;;
       let theta := np.radians d1 in
       d2 <- random.uniform 0 360 ;;
       let phi := np.radians d2 in
       let r := EARTH_RADIUS + altitude in
       let x := r * np.sin theta * np.cos phi in
       let y := r * np.sin theta * np.sin phi in
       let z := r * np.cos theta in
       ret (sats ++ [ {| sat_id := (label_prefix ++ "_" ++ str (i + 1))%string;
                         sat_type := label_prefix;
                         sat_theta := theta;
                         sat_phi := phi;
                         sat_r := r;
                         sat_x := x;
                         sat_y := y;
                         sat_z := z |} ]))
    [].

(** The module's global: [all_sats = leo_sats + geo_sats]. *)
Record globals : Type := { all_sats : list satellite }.

Definition module_init : M rng globals :=
  leo_sats <- generate_satellites NUM_LEO LEO_ALTITUDE "LEO" ;;
  geo_sats <- generate_satellites NUM_GEO GEO_ALTITUDE "GEO" ;;
  ret {| all_sats := leo_sats ++ geo_sats |}.

(** [update_positions(sats, dphi)] assigns into every dict of the list in
    turn; the function gives the list as the call leaves it.  (The dicts of
    the program's lists are pairwise distinct objects.) *)
Fixpoint update_positions (sats : list satellite) (dphi : R)
  : list satellite :=
  match sats with
  | [] => []
  | s :: rest =>
      let s := set_phi s (py_mod (sat_phi s + dphi) (2 * np.pi)) in
      let '(th, ph, r) := (sat_theta s, sat_phi s, sat_r s) in
      let s := set_x s (r * np.sin th * np.cos ph) in
      let s := set_y s (r * np.sin th * np.sin ph) in
      let s := set_z s (r * np.cos th) in
      s :: update_positions rest dphi
  end.

(** The distance the scan computes for the dicts [a] and [b]. *)
Definition dist (a b : satellite) : R :=
  np.linalg_norm (sat_x a - sat_x b, sat_y a - sat_y b, sat_z a - sat_z b).

(** [detect_collisions(sats, threshold)]: [i] runs over [range(len(sats))]
    and [j] over [range(i+1, len(sats))]; a link is appended when the
    distance is below the threshold.  Both subscripts are in range, so the
    last branch of the [match] is never taken. *)
Definition detect_collisions (sats : list satellite) (threshold : R)
  : list (nat * nat) :=
  fold_left
    (fun links i =>
       fold_left
         (fun links j =>
            match nth_error sats i, nth_error sats j with
            | Some a, Some b =>
                if Rlt_dec (dist a b) threshold
                then (links ++ [(i, j)])
                else links
            | _, _ => links
            end)
         (seq (i + 1) (length sats - (i + 1))%nat)
         links)
    (seq 0 (length sats))
    [].

(** ** The figure callback *)

(** What the program passes to [go.Scatter3d]: the coordinates, the mode,
    the colour and size of the marker (or colour and width of the line),
    the name and the customdata. *)
Record scatter3d : Type := {
  tr_x : list R;
  tr_y : list R;
  tr_z : list R;
  tr_mode : string;
  tr_color : string;
  tr_size : Z;
  tr_name : option string;
  tr_customdata : list string
}.

Inductive trace : Type :=
| earth_surface
| Scatter3d (t : scatter3d).

Record camera : Type := { eye_x : R; eye_y : R; eye_z : R }.

(** A figure: its traces and the camera when one is set (the layout the
    program gives every figure alike is left out). *)
Record figure : Type := { data : list trace; scene_camera : option camera }.

(** The text under the graph: the prompt, or the line on the selected
    satellite (id, type and altitude; its formatting is not modelled). *)
Inductive info : Type :=
| info_prompt
| info_satellite (id type : string) (altitude : R).

(** Dash's [clickData]: [None], or a dict that may hold ['points'], a list
    of dicts that may hold ['customdata']. *)
Record point : Type := { customdata : option string }.
Record click_data : Type := { points : option (list point) }.

(** [clickData and clickData.get('points')], as the list it is when truthy
    and the empty list otherwise. *)
Definition clicked_points (clickData : option click_data) : list point :=
  match clickData with
  | Some d => match points d with Some ps => ps | None => [] end
  | None => []
  end.

(** [sats[i]] *)
Definition getitem {S} (sats : list satellite) (i : nat) : M S satellite :=
  match nth_error sats i with
  | Some s => ret s
  | None => raise IndexError
  end.

(** The camera presets of [make_figure]. *)
Definition cams : list (string * camera) :=
  let R := EARTH_RADIUS + GEO_ALTITUDE in
  [ ("top",        {| eye_x := 0;     eye_y := 0;     eye_z := 3 * R |});
    ("equatorial", {| eye_x := 3 * R; eye_y := 0;     eye_z := 0 |});
    ("side",       {| eye_x := 0;     eye_y := 3 * R; eye_z := 0 |}) ].

Fixpoint lookup (key : string) (d : list (string * camera)) : option camera :=
  match d with
  | [] => None
  | (k, v) :: d' => if (k =? key)%string then Some v else lookup key d'
  end.

Definition markers (sats : list satellite) (color name : string) : trace :=
  Scatter3d {| tr_x := map sat_x sats;
               tr_y := map sat_y sats;
               tr_z := map sat_z sats;
               tr_mode := "markers";
               tr_color := color;
               tr_size := 4;
               tr_name := Some name;
               tr_customdata := map sat_id sats |}.

(** [make_figure(threshold, clickData, preset)].  Its first statement
    advances the global population by half a degree. *)
Definition make_figure (threshold : R) (clickData : option click_data)
    (preset : string) : M globals (figure * info) :=
  modify (fun g =>
    {| all_sats := update_positions (all_sats g) (np.radians 0.5) |}) ;;;
  g <- get ;;
  let all_sats := all_sats g in
  let leo := filter (fun s => (sat_type s =? "LEO")%string) all_sats in
  let geo := filter (fun s => (sat_type s =? "GEO")%string) all_sats in
  let leo_trace := markers leo "yellow" "LEO Satellites" in
  let geo_trace := markers geo "red" "GEO Satellites" in
  let links := detect_collisions all_sats threshold in
  collision_traces <-
    for_each links
      (fun traces '(i, j) =>
         a <- getitem all_sats i ;;
         b <- getitem all_sats j ;;
         ret (traces ++
              [ Scatter3d {| tr_x := [sat_x a; sat_x b];
                             tr_y := [sat_y a; sat_y b];
                             tr_z := [sat_z a; sat_z b];
                             tr_mode := "lines";
                             tr_color := "cyan";
                             tr_size := 2;
                             tr_name := None;
                             tr_customdata := [] |} ]))
      [] ;;
  let fig := {| data := [earth_surface; leo_trace; geo_trace]
                        ++ collision_traces;
                scene_camera := None |} in
  match clicked_points clickData with
  | p :: _ =>
      pid <- match customdata p with
             | Some c => ret c
             | None => raise (KeyError "customdata")
             end ;;
      match find (fun s => (sat_id s =? pid)%string) all_sats with
      | Some sat =>
          let selected :=
            Scatter3d {| tr_x := [sat_x sat];
                         tr_y := [sat_y sat];
                         tr_z := [sat_z sat];
                         tr_mode := "markers";
                         tr_color := "cyan";
                         tr_size := 10;
                         tr_name := Some "Selected Satellite";
                         tr_customdata := [] |} in
          let cam := {| eye_x := sat_x sat / sat_r sat * 3;
                        eye_y := sat_y sat / sat_r sat * 3;
                        eye_z := sat_z sat / sat_r sat * 3 |} in
          ret ({| data := data fig ++ [selected];
                  scene_camera := Some cam |},
               info_satellite (sat_id sat) (sat_type sat)
                              (sat_r sat - EARTH_RADIUS))
      | None => ret (fig, info_prompt)
      end
  | [] =>
      if (preset =? "default")%string then ret (fig, info_prompt)
      else
        match lookup preset cams with
        | Some cam =>
            ret ({| data := data fig; scene_camera := Some cam |},
                 info_prompt)
        | None => ret (fig, info_prompt)
        end
  end.

(** The Dash callback: fired by the timer, a click, the slider or the
    camera radio buttons, it passes three of its inputs on. *)
Definition update_graph (n_intervals : Z) (clickData : option click_data)
    (threshold : R) (preset : string) : M globals (figure * info) :=
  make_figure threshold clickData preset.

(** One firing of the callback: the values of its four inputs. *)
Record firing : Type := {
  f_n_intervals : Z;
  f_clickData : option click_data;
  f_threshold : R;
  f_preset : string
}.

(** The server runs the callback once per firing, whatever the previous run
    returned or raised; [serve] gives the globals it is left with. *)
Fixpoint serve (fs : list firing) (g : globals) : globals :=
  match fs with
  | [] => g
  | f :: fs' =>
      serve fs'
        (snd (update_graph (f_n_intervals f) (f_clickData f)
                           (f_threshold f) (f_preset f) g))
  end.

(** [update_positions] called once per element of [dphis], in order. *)
Definition advance_many (sats : list satellite) (dphis : list R)
  : list satellite :=
  fold_left update_positions dphis sats.

(** ** Properties of satellites *)

(** The azimuth lies in [[0, 2 pi)]. *)
Definition phi_in_range (s : satellite) : Prop :=
  0 <= sat_phi s < 2 * PI.

(** The stored position is the spherical conversion of the stored radius
    and angles (the data model's "position is derived"). *)
Definition position_derived (s : satellite) : Prop :=
  sat_x s = sat_r s * sin (sat_theta s) * cos (sat_phi s) /\
  sat_y s = sat_r s * sin (sat_theta s) * sin (sat_phi s) /\
  sat_z s = sat_r s * cos (sat_theta s).

(** The position lies on the sphere of the satellite's radius. *)
Definition on_shell (s : satellite) : Prop :=
  np.linalg_norm (sat_x s, sat_y s, sat_z s) = sat_r s.

(** The fields no tick may change. *)
Definition frame (s : satellite) : string * string * R * R :=
  (sat_id s, sat_type s, sat_theta s, sat_r s).

(** ** Derived definitions, used to state and prove the properties *)

(** The dict one iteration of the loop leaves behind. *)
Definition advanced (s : satellite) (dphi : R) : satellite :=
  {| sat_id := sat_id s; sat_type := sat_type s; sat_theta := sat_theta s;
     sat_phi := py_mod (sat_phi s + dphi) (2 * PI);
     sat_r := sat_r s;
     sat_x := sat_r s * sin (sat_theta s)
              * cos (py_mod (sat_phi s + dphi) (2 * PI));
     sat_y := sat_r s * sin (sat_theta s)
              * sin (py_mod (sat_phi s + dphi) (2 * PI));
     sat_z := sat_r s * cos (sat_theta s) |}.

(** The dict appended at index [i], from the two values drawn for it. *)
Definition new_satellite (altitude : R) (label_prefix : string) (i : Z)
    (u1 u2 : R) : satellite :=
  let theta := np.radians (0 + (180 - 0) * u1) in
  let phi := np.radians (0 + (360 - 0) * u2) in
  let r := EARTH_RADIUS + altitude in
  {| sat_id := (label_prefix ++ "_" ++ str (i + 1))%string;
     sat_type := label_prefix;
     sat_theta := theta;
     sat_phi := phi;
     sat_r := r;
     sat_x := r * np.sin theta * np.cos phi;
     sat_y := r * np.sin theta * np.sin phi;
     sat_z := r * np.cos theta |}.

(** The dict of index [k] when the loop starts at cursor [c0] of [d]. *)
Definition drawn (altitude : R) (label_prefix : string) (d : nat -> R)
    (c0 k : nat) : satellite :=
  new_satellite altitude label_prefix (Z.of_nat k)
                (d (c0 + 2 * k)%nat) (d (c0 + 2 * k + 1)%nat).

(** A derived position on a non-negative radius. *)
Definition shell_ready (s : satellite) : Prop :=
  position_derived s /\ 0 <= sat_r s.

(** A generator that returns 0 at every call, for the examples below. *)
Definition zero_rng : rng := {| draws := fun _ => 0; cursor := 0 |}.

(** The test of the inner loop at the subscripts [i] and [j]. *)
Definition close (sats : list satellite) (threshold : R) (i j : nat) : bool :=
  match nth_error sats i, nth_error sats j with
  | Some a, Some b => if Rlt_dec (dist a b) threshold then true else false
  | _, _ => false
  end.

(** The links the inner loop appends for [i]. *)
Definition links_from (sats : list satellite) (threshold : R) (i : nat)
  : list (nat * nat) :=
  map (pair i)
      (filter (close sats threshold i)
              (seq (i + 1) (length sats - (i + 1)))).

(** Two satellites at one point of the low shell, and a third one three
    kilometres above them, for the examples below. *)
Definition sat_a : satellite :=
  {| sat_id := "LEO_1"; sat_type := "LEO"; sat_theta := 0; sat_phi := 0;
     sat_r := 8371; sat_x := 0; sat_y := 0; sat_z := 8371 |}.
Definition sat_b : satellite :=
  {| sat_id := "LEO_2"; sat_type := "LEO"; sat_theta := 0; sat_phi := 0;
     sat_r := 8371; sat_x := 0; sat_y := 0; sat_z := 8371 |}.
Definition sat_c : satellite :=
  {| sat_id := "LEO_3"; sat_type := "LEO"; sat_theta := 0; sat_phi := 0;
     sat_r := 8374; sat_x := 0; sat_y := 0; sat_z := 8374 |}.

(** A statement that leaves the state as it found it. *)
Definition keeps_state {S A} (m : M S A) : Prop :=
  forall s, snd (m s) = s.

(** ** Definitions for the further properties *)

(** The population the module creates from the generator [g]: the low
    shell first, then the geostationary shell on the draws that follow. *)
Definition created (g : rng) : list satellite :=
  map (drawn LEO_ALTITUDE "LEO" (draws g) (cursor g))
      (seq 0 (Z.to_nat NUM_LEO))
  ++ map (drawn GEO_ALTITUDE "GEO" (draws g)
                (cursor g + 2 * Z.to_nat NUM_LEO))
         (seq 0 (Z.to_nat NUM_GEO)).

(** The polar angle lies in [[0, pi)]. *)
Definition theta_in_range (s : satellite) : Prop := 0 <= sat_theta s < PI.

(** The order of the scan on index pairs: first index, then second. *)
Definition lex_lt (p q : nat * nat) : Prop :=
  (fst p < fst q)%nat \/ (fst p = fst q /\ (snd p < snd q)%nat).

(** The line the figure draws for a link between [a] and [b]. *)
Definition link_trace (a b : satellite) : trace :=
  Scatter3d {| tr_x := [sat_x a; sat_x b];
               tr_y := [sat_y a; sat_y b];
               tr_z := [sat_z a; sat_z b];
               tr_mode := "lines";
               tr_color := "cyan";
               tr_size := 2;
               tr_name := None;
               tr_customdata := [] |}.

(** [tr] is the line for the link [l] of the population [sats]. *)
Definition draws_link (sats : list satellite) (l : nat * nat) (tr : trace)
  : Prop :=
  exists a b,
    nth_error sats (fst l) = Some a /\ nth_error sats (snd l) = Some b /\
    tr = link_trace a b.

(** The marker the figure adds for the selected satellite. *)
Definition selected_trace (sat : satellite) : trace :=
  Scatter3d {| tr_x := [sat_x sat];
               tr_y := [sat_y sat];
               tr_z := [sat_z sat];
               tr_mode := "markers";
               tr_color := "cyan";
               tr_size := 10;
               tr_name := Some "Selected Satellite";
               tr_customdata := [] |}.

(** The camera the figure gets for the selected satellite. *)
Definition camera_on (sat : satellite) : camera :=
  {| eye_x := sat_x sat / sat_r sat * 3;
     eye_y := sat_y sat / sat_r sat * 3;
     eye_z := sat_z sat / sat_r sat * 3 |}.

(** The figure before the click and the preset are looked at: the Earth,
    the two marker traces and the lines [traces]. *)
Definition plain_figure (sats : list satellite) (traces : list trace)
  : figure :=
  {| data := [earth_surface;
              markers (filter (fun s => (sat_type s =? "LEO")%string) sats)
                      "yellow" "LEO Satellites";
              markers (filter (fun s => (sat_type s =? "GEO")%string) sats)
                      "red" "GEO Satellites"] ++ traces;
     scene_camera := None |}.

(** The end of [make_figure], from the click handling on, as a function of
    the figure built so far and of the population. *)
Definition respond (fig : figure) (sats : list satellite)
    (clickData : option click_data) (preset : string)
  : result (figure * info) :=
  match clicked_points clickData with
  | p :: _ =>
      match customdata p with
      | None => Raise (KeyError "customdata")
      | Some pid =>
          match find (fun s => (sat_id s =? pid)%string) sats with
          | Some sat =>
              Ok ({| data := data fig ++ [selected_trace sat];
                     scene_camera := Some (camera_on sat) |},
                  info_satellite (sat_id sat) (sat_type sat)
                                 (sat_r sat - EARTH_RADIUS))
          | None => Ok (fig, info_prompt)
          end
      end
  | [] =>
      if (preset =? "default")%string then Ok (fig, info_prompt)
      else
        match lookup preset cams with
        | Some cam =>
            Ok ({| data := data fig; scene_camera := Some cam |},
                info_prompt)
        | None => Ok (fig, info_prompt)
        end
  end.

(** The Earth surface mesh: [np.mgrid[0:2*np.pi:50j, 0:np.pi:25j]] gives
    50 values of [u] from 0 to [2 pi] and 25 values of [v] from 0 to [pi],
    both ends included; [u i j] is the entry at row [i] and column [j]. *)
Module mesh.
Definition u (i j : nat) : R := 0 + INR i * ((2 * np.pi - 0) / (50 - 1)).
Definition v (i j : nat) : R := 0 + INR j * ((np.pi - 0) / (25 - 1)).
Definition xe (i j : nat) : R :=
  EARTH_RADIUS * np.cos (u i j) * np.sin (v i j).
Definition ye (i j : nat) : R :=
  EARTH_RADIUS * np.sin (u i j) * np.sin (v i j).
Definition ze (i j : nat) : R := EARTH_RADIUS * np.cos (v i j).
End mesh.

(** ** The floored remainder *)

Lemma two_pi_pos : 0 < 2 * PI.
Proof. pose proof PI_RGT_0. lra. Qed.

Lemma py_mod_range (a b : R) : 0 < b -> 0 <= py_mod a b < b.
Proof.
  intros Hb. unfold py_mod.
  destruct (base_Int_part (a / b)) as [Hlo Hhi].
  assert (Hab : a = a / b * b) by (field; lra).
  set (k := IZR (Int_part (a / b))) in *.
  split.
  - assert (k * b <= a / b * b) by (apply Rmult_le_compat_r; lra). lra.
  - assert (a / b * b < (k + 1) * b) by (apply Rmult_lt_compat_r; lra). lra.
Qed.

Lemma py_mod_shift (a b : R) (k : Z) :
  0 < b -> 0 <= a < b -> py_mod (a + IZR k * b) b = a.
Proof.
  intros Hb [Ha0 Hab]. unfold py_mod.
  assert (Hq : (a + IZR k * b) / b = IZR k + a / b) by (field; lra).
  assert (H0 : 0 <= a / b).
  { apply Rmult_le_pos; [lra | left; apply Rinv_0_lt_compat; lra]. }
  assert (H1 : a / b < 1).
  { apply (Rmult_lt_reg_r b); [lra |].
    replace (a / b * b) with a by (field; lra). lra. }
  rewrite <- (Int_part_spec ((a + IZR k * b) / b) k) by (rewrite Hq; lra).
  lra.
Qed.

Lemma py_mod_small (a b : R) : 0 < b -> 0 <= a < b -> py_mod a b = a.
Proof.
  intros Hb Ha. rewrite <- (py_mod_shift a b 0 Hb Ha) at 2.
  f_equal. lra.
Qed.

Lemma py_mod_period (a b : R) : 0 < b -> 0 <= a < b -> py_mod (a + b) b = a.
Proof.
  intros Hb Ha. rewrite <- (py_mod_shift a b 1 Hb Ha) at 2.
  f_equal. lra.
Qed.

(** ** The Euclidean norm *)

Lemma norm_nonneg (v : R * R * R) : 0 <= np.linalg_norm v.
Proof. destruct v as [[a b] c]. apply sqrt_pos. Qed.

Lemma dist_nonneg (a b : satellite) : 0 <= dist a b.
Proof. apply norm_nonneg. Qed.

Lemma norm_spherical (r th ph : R) :
  0 <= r ->
  np.linalg_norm (r * sin th * cos ph, r * sin th * sin ph, r * cos th) = r.
Proof.
  intros Hr. unfold np.linalg_norm.
  pose proof (sin2_cos2 th) as Hth. pose proof (sin2_cos2 ph) as Hph.
  unfold Rsqr in Hth, Hph.
  replace (r * sin th * cos ph * (r * sin th * cos ph)
           + r * sin th * sin ph * (r * sin th * sin ph)
           + r * cos th * (r * cos th))
    with (r * r * (sin th * sin th * (sin ph * sin ph + cos ph * cos ph)
                   + cos th * cos th)) by ring.
  rewrite Hph, Rmult_1_r, Hth, Rmult_1_r.
  apply sqrt_square; exact Hr.
Qed.

Lemma derived_on_shell (s : satellite) :
  position_derived s -> 0 <= sat_r s -> on_shell s.
Proof.
  intros (Hx & Hy & Hz) Hr. unfold on_shell.
  rewrite Hx, Hy, Hz. apply norm_spherical; exact Hr.
Qed.

(** ** One step of [update_positions] *)

Lemma update_positions_map (sats : list satellite) (dphi : R) :
  update_positions sats dphi = map (fun s => advanced s dphi) sats.
Proof.
  induction sats as [| s rest IH]; simpl.
  - reflexivity.
  - rewrite IH. reflexivity.
Qed.

Lemma update_positions_length (sats : list satellite) (dphi : R) :
  length (update_positions sats dphi) = length sats.
Proof. rewrite update_positions_map. apply length_map. Qed.

Lemma advanced_frame (s : satellite) (dphi : R) :
  frame (advanced s dphi) = frame s.
Proof. reflexivity. Qed.

Lemma advanced_derived (s : satellite) (dphi : R) :
  position_derived (advanced s dphi).
Proof. repeat split. Qed.

Lemma advanced_in_range (s : satellite) (dphi : R) :
  phi_in_range (advanced s dphi).
Proof. apply py_mod_range, two_pi_pos. Qed.

Lemma satellite_eq (s s' : satellite) :
  frame s = frame s' -> sat_phi s = sat_phi s' ->
  sat_x s = sat_x s' -> sat_y s = sat_y s' -> sat_z s = sat_z s' ->
  s = s'.
Proof.
  destruct s, s'; unfold frame; simpl.
  intros Hf -> -> -> ->. injection Hf as -> -> -> ->. reflexivity.
Qed.

(** A step that maps the azimuth to itself is the identity on a satellite
    whose position is derived. *)
Lemma advanced_fixed (s : satellite) (dphi : R) :
  position_derived s ->
  py_mod (sat_phi s + dphi) (2 * PI) = sat_phi s ->
  advanced s dphi = s.
Proof.
  intros (Hx & Hy & Hz) Hphi.
  apply satellite_eq; simpl; try rewrite Hphi; auto.
Qed.

Lemma update_positions_derived (sats : list satellite) (dphi : R) :
  Forall position_derived (update_positions sats dphi).
Proof.
  rewrite update_positions_map. apply Forall_map, Forall_forall.
  intros s _. apply advanced_derived.
Qed.

Lemma update_positions_in_range (sats : list satellite) (dphi : R) :
  Forall phi_in_range (update_positions sats dphi).
Proof.
  rewrite update_positions_map. apply Forall_map, Forall_forall.
  intros s _. apply advanced_in_range.
Qed.

Lemma update_positions_frame (sats : list satellite) (dphi : R) :
  map frame (update_positions sats dphi) = map frame sats.
Proof.
  rewrite update_positions_map, map_map. apply map_ext.
  intros s. apply advanced_frame.
Qed.

Lemma advance_many_frame (dphis : list R) (sats : list satellite) :
  map frame (advance_many sats dphis) = map frame sats.
Proof.
  unfold advance_many. revert sats.
  induction dphis as [| d ds IH]; intros sats; simpl.
  - reflexivity.
  - rewrite IH. apply update_positions_frame.
Qed.

(** A property that creation gives and every step keeps holds after any
    number of steps. *)
Lemma advance_many_Forall (P : satellite -> Prop) (dphis : list R) :
  (forall l d, Forall P l -> Forall P (update_positions l d)) ->
  forall sats, Forall P sats -> Forall P (advance_many sats dphis).
Proof.
  intros Hstep. unfold advance_many.
  induction dphis as [| d ds IH]; intros sats H0; simpl.
  - exact H0.
  - apply IH, Hstep, H0.
Qed.

(** ** What [generate_satellites] returns *)

Section Generate.
Variables (altitude : R) (label_prefix : string).
Variables (d : nat -> R) (c0 : nat).

Let body (sats : list satellite) (i : Z) : M rng (list satellite) :=
  d1 <- random.uniform 0 180 ;;
  let theta := np.radians d1 in
  d2 <- random.uniform 0 360 ;;
  let phi := np.radians d2 in
  let r := EARTH_RADIUS + altitude in
  let x := r * np.sin theta * np.cos phi in
  let y := r * np.sin theta * np.sin phi in
  let z := r * np.cos theta in
  ret (sats ++ [ {| sat_id := (label_prefix ++ "_" ++ str (i + 1))%string;
                    sat_type := label_prefix;
                    sat_theta := theta;
                    sat_phi := phi;
                    sat_r := r;
                    sat_x := x;
                    sat_y := y;
                    sat_z := z |} ]).

Lemma generate_step (sats : list satellite) (i : Z) (c : nat) :
  body sats i {| draws := d; cursor := c |}
  = (Ok (sats ++ [new_satellite altitude label_prefix i (d c) (d (S c))]),
     {| draws := d; cursor := S (S c) |}).
Proof. reflexivity. Qed.

Lemma generate_loop (n start : nat) (acc : list satellite) :
  for_each (map Z.of_nat (seq start n)) body acc
           {| draws := d; cursor := c0 + 2 * start |}
  = (Ok (acc ++ map (drawn altitude label_prefix d c0) (seq start n)),
     {| draws := d; cursor := c0 + 2 * (start + n) |}).
Proof.
  revert start acc. induction n as [| n IH]; intros start acc.
  - cbn [seq map for_each]. unfold ret.
    rewrite app_nil_r, Nat.add_0_r. reflexivity.
  - cbn [seq map for_each]. unfold bind. rewrite generate_step.
    replace (S (S (c0 + 2 * start))) with (c0 + 2 * S start)%nat by lia.
    rewrite IH, <- app_assoc. cbn [app]. unfold drawn at 2.
    replace (c0 + 2 * start + 1)%nat with (S (c0 + 2 * start)) by lia.
    replace (S start + n)%nat with (start + S n)%nat by lia.
    reflexivity.
Qed.
End Generate.

(** The call returns, with one dict per index of [range(num)] and two
    draws consumed for each. *)
Lemma generate_satellites_eq (num : Z) (altitude : R) (label_prefix : string)
    (g : rng) :
  generate_satellites num altitude label_prefix g
  = (Ok (map (drawn altitude label_prefix (draws g) (cursor g))
             (seq 0 (Z.to_nat num))),
     {| draws := draws g; cursor := cursor g + 2 * Z.to_nat num |}).
Proof.
  unfold generate_satellites, range.
  pose proof (generate_loop altitude label_prefix (draws g) (cursor g)
                            (Z.to_nat num) 0 []) as H.
  cbn zeta in H. simpl app in H.
  replace (cursor g + 2 * 0)%nat with (cursor g) in H by lia.
  destruct g as [dg cg]. simpl in *. exact H.
Qed.

Lemma new_satellite_derived (altitude : R) (label_prefix : string) (i : Z)
    (u1 u2 : R) :
  position_derived (new_satellite altitude label_prefix i u1 u2).
Proof. repeat split. Qed.

Lemma new_satellite_in_range (altitude : R) (label_prefix : string) (i : Z)
    (u1 u2 : R) :
  0 <= u2 < 1 -> phi_in_range (new_satellite altitude label_prefix i u1 u2).
Proof.
  intros [H0 H1]. unfold phi_in_range, new_satellite, np.radians. simpl.
  pose proof PI_RGT_0 as Hpi.
  replace ((0 + (360 - 0) * u2) * (PI / 180)) with (u2 * (2 * PI)) by field.
  split; nra.
Qed.

Lemma shell_ready_on_shell (sats : list satellite) :
  Forall shell_ready sats -> Forall on_shell sats.
Proof.
  apply Forall_impl. intros s [Hd Hr]. apply derived_on_shell; assumption.
Qed.

Lemma update_positions_shell_ready (sats : list satellite) (dphi : R) :
  Forall shell_ready sats -> Forall shell_ready (update_positions sats dphi).
Proof.
  intros H. rewrite update_positions_map. apply Forall_map.
  revert H. apply Forall_impl. intros s [_ Hr].
  split; [apply advanced_derived | exact Hr].
Qed.

Lemma generated_Forall (P : satellite -> Prop) (altitude : R)
    (label_prefix : string) (d : nat -> R) (c0 n : nat) :
  (forall i u1 u2 k, u1 = d k -> u2 = d (S k) ->
     P (new_satellite altitude label_prefix i u1 u2)) ->
  Forall P (map (drawn altitude label_prefix d c0) (seq 0 n)).
Proof.
  intros H. apply Forall_map, Forall_forall. intros k _. unfold drawn.
  apply (H _ _ _ (c0 + 2 * k)%nat); [reflexivity | f_equal; lia].
Qed.

Lemma zero_rng_ok : rng_ok zero_rng.
Proof. intros k. simpl. lra. Qed.

(** ** Creation *)

(** C9, as the program has it: [generate_satellites] checks neither
    argument and never raises.  It returns one satellite per index of
    [range(num)], each on radius [EARTH_RADIUS + altitude] whatever the sign
    of the altitude; a count that is zero or negative gives the empty list. *)
Theorem generate_satellites_returns (num : Z) (altitude : R)
    (label_prefix : string) (g : rng) :
  exists sats g',
    generate_satellites num altitude label_prefix g = (Ok sats, g') /\
    length sats = Z.to_nat num /\
    Forall (fun s => sat_r s = EARTH_RADIUS + altitude) sats /\
    ((num <= 0)%Z -> sats = []).
Proof.
  rewrite generate_satellites_eq. do 2 eexists. split; [reflexivity |].
  split; [| split].
  - rewrite length_map, length_seq. reflexivity.
  - apply generated_Forall. reflexivity.
  - intros Hn. replace (Z.to_nat num) with 0%nat by lia. reflexivity.
Qed.

Lemma generate_satellites_returns_witness :
  exists sats g',
    generate_satellites 0 2000 "LEO" zero_rng = (Ok sats, g') /\
    length sats = Z.to_nat 0 /\
    Forall (fun s => sat_r s = EARTH_RADIUS + 2000) sats /\
    ((0 <= 0)%Z -> sats = []).
Proof. apply (generate_satellites_returns 0 2000 "LEO" zero_rng). Defined.

(** C9 as stated fails: no call raises.  A negative count with altitude
    zero returns the empty list, and a count of one with a negative altitude
    returns one satellite. *)
Lemma generate_satellites_no_validation :
  ~ (forall num altitude label_prefix g,
        (num < 0)%Z \/ altitude <= 0 ->
        exists e g',
          generate_satellites num altitude label_prefix g = (Raise e, g')) /\
  generate_satellites (-1) 0 "LEO" zero_rng = (Ok [], zero_rng) /\
  exists s g',
    generate_satellites 1 (-100) "LEO" zero_rng = (Ok [s], g') /\
    sat_id s = "LEO_1" /\ sat_r s = 6371 + -100.
Proof.
  assert (E : generate_satellites (-1) 0 "LEO" zero_rng = (Ok [], zero_rng))
    by (rewrite generate_satellites_eq; reflexivity).
  split; [| split; [exact E |]].
  - intros H.
    destruct (H (-1)%Z 0 "LEO" zero_rng) as (e & g' & Hg).
    + left. lia.
    + rewrite E in Hg. discriminate.
  - rewrite generate_satellites_eq. do 2 eexists.
    split; [reflexivity | split; reflexivity].
Qed.

(** C5: a satellite created at an altitude that keeps its radius
    non-negative (every altitude above [-EARTH_RADIUS], so every positive
    one) lies on the sphere of its radius, at creation and after any
    sequence of [update_positions] calls. *)
Theorem position_on_shell (num : Z) (altitude : R) (label_prefix : string)
    (g : rng) (dphis : list R) :
  0 <= EARTH_RADIUS + altitude ->
  exists sats g',
    generate_satellites num altitude label_prefix g = (Ok sats, g') /\
    Forall on_shell sats /\
    Forall on_shell (advance_many sats dphis).
Proof.
  intros Hr. rewrite generate_satellites_eq. do 2 eexists.
  split; [reflexivity |].
  assert (H0 : Forall shell_ready
                 (map (drawn altitude label_prefix (draws g) (cursor g))
                      (seq 0 (Z.to_nat num)))).
  { apply generated_Forall. intros i u1 u2 k _ _.
    split; [apply new_satellite_derived | exact Hr]. }
  split; apply shell_ready_on_shell.
  - exact H0.
  - apply advance_many_Forall; [| exact H0].
    intros l d. apply update_positions_shell_ready.
Qed.

Lemma position_on_shell_witness :
  exists sats g',
    generate_satellites 3 2000 "LEO" zero_rng = (Ok sats, g') /\
    Forall on_shell sats /\
    Forall on_shell (advance_many sats [np.radians 0.5; 1; -4]).
Proof.
  apply (position_on_shell 3 2000 "LEO" zero_rng).
  unfold EARTH_RADIUS. lra.
Defined.

(** C7: the azimuth drawn at creation lies in [[0, 2 pi)] and so does the
    azimuth after any sequence of [update_positions] calls; the update
    wraps: whatever the population and the step, one call leaves every
    azimuth in [[0, 2 pi)]. *)
Theorem azimuth_in_range (num : Z) (altitude : R) (label_prefix : string)
    (g : rng) (dphis : list R) :
  rng_ok g ->
  exists sats g',
    generate_satellites num altitude label_prefix g = (Ok sats, g') /\
    Forall phi_in_range sats /\
    Forall phi_in_range (advance_many sats dphis) /\
    (forall pop dphi, Forall phi_in_range (update_positions pop dphi)).
Proof.
  intros Hg. rewrite generate_satellites_eq. do 2 eexists.
  split; [reflexivity |].
  assert (H0 : Forall phi_in_range
                 (map (drawn altitude label_prefix (draws g) (cursor g))
                      (seq 0 (Z.to_nat num)))).
  { apply generated_Forall. intros i u1 u2 k _ ->.
    apply new_satellite_in_range, Hg. }
  split; [exact H0 | split].
  - apply advance_many_Forall; [| exact H0].
    intros l d _. apply update_positions_in_range.
  - apply update_positions_in_range.
Qed.

Lemma azimuth_in_range_witness :
  exists sats g',
    generate_satellites 3 35786 "GEO" zero_rng = (Ok sats, g') /\
    Forall phi_in_range sats /\
    Forall phi_in_range (advance_many sats [np.radians 0.5; -7]) /\
    (forall pop dphi, Forall phi_in_range (update_positions pop dphi)).
Proof.
  apply (azimuth_in_range 3 35786 "GEO" zero_rng). exact zero_rng_ok.
Defined.

(** ** The pairwise scan *)

Lemma inner_loop (sats : list satellite) (threshold : R) (i : nat)
    (js : list nat) (links : list (nat * nat)) :
  fold_left
    (fun links j =>
       match nth_error sats i, nth_error sats j with
       | Some a, Some b =>
           if Rlt_dec (dist a b) threshold then links ++ [(i, j)] else links
       | _, _ => links
       end) js links
  = links ++ map (pair i) (filter (close sats threshold i) js).
Proof.
  revert links. induction js as [| j js IH]; intros links; simpl.
  - symmetry. apply app_nil_r.
  - rewrite IH. unfold close at 2.
    destruct (nth_error sats i) as [a |]; [| reflexivity].
    destruct (nth_error sats j) as [b |]; [| reflexivity].
    destruct (Rlt_dec (dist a b) threshold); [| reflexivity].
    simpl. rewrite <- app_assoc. reflexivity.
Qed.

(** The scan lists, for [i] in increasing order, the close [j > i] in
    increasing order. *)
Lemma detect_collisions_eq (sats : list satellite) (threshold : R) :
  detect_collisions sats threshold
  = flat_map (links_from sats threshold) (seq 0 (length sats)).
Proof.
  unfold detect_collisions.
  enough (H : forall is_ links,
             fold_left
               (fun links i =>
                  fold_left
                    (fun links j =>
                       match nth_error sats i, nth_error sats j with
                       | Some a, Some b =>
                           if Rlt_dec (dist a b) threshold
                           then links ++ [(i, j)]
                           else links
                       | _, _ => links
                       end)
                    (seq (i + 1) (length sats - (i + 1)))
                    links)
               is_ links
             = links ++ flat_map (links_from sats threshold) is_)
    by apply H.
  induction is_ as [| i is_ IH]; intros links; simpl.
  - symmetry. apply app_nil_r.
  - rewrite inner_loop, IH, <- app_assoc. reflexivity.
Qed.

Lemma close_true (sats : list satellite) (threshold : R) (i j : nat) :
  close sats threshold i j = true <->
  exists a b, nth_error sats i = Some a /\ nth_error sats j = Some b /\
              dist a b < threshold.
Proof.
  unfold close. split.
  - destruct (nth_error sats i) as [a |]; [| discriminate].
    destruct (nth_error sats j) as [b |]; [| discriminate].
    destruct (Rlt_dec (dist a b) threshold) as [Hlt |]; [| discriminate].
    intros _. exists a, b. auto.
  - intros (a & b & -> & -> & Hlt).
    destruct (Rlt_dec (dist a b) threshold); [reflexivity | contradiction].
Qed.

Lemma in_detect_collisions (sats : list satellite) (threshold : R)
    (i j : nat) :
  In (i, j) (detect_collisions sats threshold) <->
  (i < j < length sats)%nat /\ close sats threshold i j = true.
Proof.
  rewrite detect_collisions_eq, in_flat_map. unfold links_from. split.
  - intros (i' & Hi' & Hin). apply in_map_iff in Hin.
    destruct Hin as (j' & Heq & Hj'). injection Heq as -> ->.
    apply filter_In in Hj'. destruct Hj' as [Hj' Hc].
    apply in_seq in Hj'. apply in_seq in Hi'. split; [lia | exact Hc].
  - intros [Hij Hc]. exists i. split.
    + apply in_seq. lia.
    + apply in_map, filter_In. split; [apply in_seq; lia | exact Hc].
Qed.

Lemma NoDup_links (sats : list satellite) (threshold : R) (is_ : list nat) :
  NoDup is_ -> NoDup (flat_map (links_from sats threshold) is_).
Proof.
  induction 1 as [| i is_ Hi Hnd IH]; simpl.
  - constructor.
  - apply NoDup_app.
    + unfold links_from. apply NoDup_map_NoDup_ForallPairs.
      * intros j j' _ _ Heq. injection Heq as ->. reflexivity.
      * apply NoDup_filter, seq_NoDup.
    + exact IH.
    + intros [i' j] Hin Hin'. unfold links_from in Hin.
      apply in_map_iff in Hin. destruct Hin as (j' & Heq & _).
      injection Heq as <- <-.
      apply in_flat_map in Hin'. destruct Hin' as (k & Hk & Hin').
      unfold links_from in Hin'. apply in_map_iff in Hin'.
      destruct Hin' as (j'' & Heq & _). injection Heq as -> _.
      contradiction.
Qed.

(** C1: the scan returns the index pairs [(i, j)], [i < j], of satellites
    whose Euclidean distance is strictly below the threshold, and only
    those; a pair at exactly the threshold is absent; no pair is listed
    twice, in either order. *)
Theorem detect_collisions_spec (sats : list satellite) (threshold : R) :
  (forall i j,
      In (i, j) (detect_collisions sats threshold) <->
      (i < j < length sats)%nat /\
      exists a b,
        nth_error sats i = Some a /\ nth_error sats j = Some b /\
        sqrt ((sat_x a - sat_x b) ^ 2 + (sat_y a - sat_y b) ^ 2
              + (sat_z a - sat_z b) ^ 2) < threshold) /\
  (forall i j a b,
      nth_error sats i = Some a -> nth_error sats j = Some b ->
      dist a b = threshold ->
      ~ In (i, j) (detect_collisions sats threshold)) /\
  NoDup (detect_collisions sats threshold) /\
  (forall i j,
      In (i, j) (detect_collisions sats threshold) ->
      ~ In (j, i) (detect_collisions sats threshold)).
Proof.
  assert (Hd : forall a b,
             sqrt ((sat_x a - sat_x b) ^ 2 + (sat_y a - sat_y b) ^ 2
                   + (sat_z a - sat_z b) ^ 2) = dist a b).
  { intros a b. unfold dist, np.linalg_norm. f_equal. ring. }
  split; [| split; [| split]].
  - intros i j. rewrite in_detect_collisions, close_true.
    split; intros [Hij (a & b & Ha & Hb & Hlt)]; (split; [exact Hij |]);
      exists a, b; repeat split; try assumption.
    + rewrite Hd. exact Hlt.
    + rewrite <- Hd. exact Hlt.
  - intros i j a b Ha Hb Heq Hin.
    apply in_detect_collisions in Hin. destruct Hin as [_ Hc].
    apply close_true in Hc. destruct Hc as (a' & b' & Ha' & Hb' & Hlt).
    rewrite Ha in Ha'. rewrite Hb in Hb'.
    injection Ha' as <-. injection Hb' as <-. lra.
  - rewrite detect_collisions_eq. apply NoDup_links, seq_NoDup.
  - intros i j Hin Hin'.
    apply in_detect_collisions in Hin. apply in_detect_collisions in Hin'.
    lia.
Qed.

(** C3: with a threshold that is zero or negative the scan returns the
    empty list, so a negative threshold gives what zero gives; the scan is
    a total function, nothing is raised. *)
Theorem detect_collisions_nonpositive (sats : list satellite)
    (threshold : R) :
  threshold <= 0 ->
  detect_collisions sats threshold = [] /\
  detect_collisions sats threshold = detect_collisions sats 0.
Proof.
  assert (H : forall t, t <= 0 -> detect_collisions sats t = []).
  { intros t Ht. destruct (detect_collisions sats t) as [| [i j] l] eqn:E.
    - reflexivity.
    - assert (Hin : In (i, j) (detect_collisions sats t))
        by (rewrite E; left; reflexivity).
      apply in_detect_collisions in Hin. destruct Hin as [_ Hc].
      apply close_true in Hc. destruct Hc as (a & b & _ & _ & Hlt).
      pose proof (dist_nonneg a b). lra. }
  intros Ht. rewrite (H threshold Ht), (H 0) by lra. split; reflexivity.
Qed.

(** C4: a larger threshold reports every pair a smaller one reports. *)
Theorem detect_collisions_monotone (sats : list satellite) (t1 t2 : R) :
  t1 < t2 ->
  incl (detect_collisions sats t1) (detect_collisions sats t2).
Proof.
  intros Ht [i j] Hin.
  apply in_detect_collisions in Hin. destruct Hin as [Hij Hc].
  apply in_detect_collisions. split; [exact Hij |].
  apply close_true in Hc. destruct Hc as (a & b & Ha & Hb & Hlt).
  apply close_true. exists a, b. repeat split; try assumption. lra.
Qed.

Lemma dist_a_b : dist sat_a sat_b = 0.
Proof.
  unfold dist, np.linalg_norm. simpl.
  replace ((0 - 0) * (0 - 0) + (0 - 0) * (0 - 0)
           + (8371 - 8371) * (8371 - 8371)) with 0 by ring.
  apply sqrt_0.
Qed.

Lemma dist_a_c : dist sat_a sat_c = 3.
Proof.
  unfold dist, np.linalg_norm. simpl.
  replace ((0 - 0) * (0 - 0) + (0 - 0) * (0 - 0)
           + (8371 - 8374) * (8371 - 8374)) with (3 * 3) by ring.
  apply sqrt_square. lra.
Qed.

(** The scan run by hand: coincident satellites are linked under any
    positive threshold, and a pair at exactly the threshold is not. *)
Example detect_coincident :
  detect_collisions [sat_a; sat_b] 1 = [(0, 1)%nat].
Proof.
  unfold detect_collisions. simpl. rewrite dist_a_b.
  destruct (Rlt_dec 0 1) as [_ | H]; [reflexivity | lra].
Qed.

Example detect_at_threshold :
  detect_collisions [sat_a; sat_c] 3 = [].
Proof.
  unfold detect_collisions. simpl. rewrite dist_a_c.
  destruct (Rlt_dec 3 3) as [H | _]; [lra | reflexivity].
Qed.

Lemma detect_collisions_spec_witness :
  In (0, 1)%nat (detect_collisions [sat_a; sat_b] 1).
Proof.
  apply (proj1 (detect_collisions_spec [sat_a; sat_b] 1)).
  split; [simpl; lia |].
  exists sat_a, sat_b. repeat split.
  replace ((sat_x sat_a - sat_x sat_b) ^ 2 + (sat_y sat_a - sat_y sat_b) ^ 2
           + (sat_z sat_a - sat_z sat_b) ^ 2) with 0 by (simpl; ring).
  rewrite sqrt_0. lra.
Defined.

Lemma detect_collisions_nonpositive_witness :
  detect_collisions [sat_a; sat_b] (-5) = [] /\
  detect_collisions [sat_a; sat_b] (-5) = detect_collisions [sat_a; sat_b] 0.
Proof. apply (detect_collisions_nonpositive [sat_a; sat_b] (-5)). lra. Defined.

Lemma detect_collisions_monotone_witness :
  incl (detect_collisions [sat_a; sat_b; sat_c] 1)
       (detect_collisions [sat_a; sat_b; sat_c] 100).
Proof.
  apply (detect_collisions_monotone [sat_a; sat_b; sat_c] 1 100). lra.
Defined.

(** ** The update *)

Lemma update_positions_fixed (sats : list satellite) (dphi : R) :
  Forall position_derived sats ->
  Forall (fun s => py_mod (sat_phi s + dphi) (2 * PI) = sat_phi s) sats ->
  update_positions sats dphi = sats.
Proof.
  intros Hd Hp. rewrite update_positions_map.
  rewrite <- (map_id sats) at 2. apply map_ext_Forall.
  rewrite Forall_forall in *. intros s Hs.
  apply advanced_fixed; auto.
Qed.

(** C2: [update_positions] keeps the length and the order; the satellite
    at each index gets the azimuth [(phi + dphi) mod 2 pi] and the
    position that is the spherical conversion of its radius, its polar
    angle and the new azimuth.  With [dphi = 0], on a population whose
    azimuths lie in [[0, 2 pi)], both angles of every satellite are left as
    they were, and where the stored positions were derived from the stored
    angles the whole population is. *)
Theorem update_positions_spec (sats : list satellite) (dphi : R) :
  length (update_positions sats dphi) = length sats /\
  (forall i s,
      nth_error sats i = Some s ->
      exists s',
        nth_error (update_positions sats dphi) i = Some s' /\
        sat_phi s' = py_mod (sat_phi s + dphi) (2 * PI) /\
        sat_x s' = sat_r s * sin (sat_theta s) * cos (sat_phi s') /\
        sat_y s' = sat_r s * sin (sat_theta s) * sin (sat_phi s') /\
        sat_z s' = sat_r s * cos (sat_theta s)) /\
  (Forall phi_in_range sats ->
   map sat_phi (update_positions sats 0) = map sat_phi sats /\
   map sat_theta (update_positions sats 0) = map sat_theta sats /\
   (Forall position_derived sats -> update_positions sats 0 = sats)).
Proof.
  split; [apply update_positions_length | split].
  - intros i s Hs. exists (advanced s dphi). split.
    + rewrite update_positions_map, nth_error_map, Hs. reflexivity.
    + repeat split.
  - intros Hr.
    assert (Hp : Forall (fun s => py_mod (sat_phi s + 0) (2 * PI)
                                  = sat_phi s) sats).
    { revert Hr. apply Forall_impl. intros s Hs.
      rewrite Rplus_0_r. apply py_mod_small; [apply two_pi_pos | exact Hs]. }
    split; [| split].
    + rewrite update_positions_map, map_map. apply map_ext_Forall. exact Hp.
    + rewrite update_positions_map, map_map. reflexivity.
    + intros Hd. apply update_positions_fixed; assumption.
Qed.

Lemma sat_a_in_range : phi_in_range sat_a.
Proof. unfold phi_in_range. simpl. pose proof PI_RGT_0. lra. Qed.

Lemma sat_a_derived : position_derived sat_a.
Proof.
  unfold position_derived. simpl. rewrite sin_0, cos_0. repeat split; ring.
Qed.

Lemma update_positions_spec_witness :
  update_positions [sat_a] 0 = [sat_a].
Proof.
  assert (Hr : Forall phi_in_range [sat_a])
    by (constructor; [exact sat_a_in_range | constructor]).
  assert (Hd : Forall position_derived [sat_a])
    by (constructor; [exact sat_a_derived | constructor]).
  exact (proj2 (proj2 (proj2 (proj2 (update_positions_spec [sat_a] 0)) Hr))
               Hd).
Defined.

(** C8: on a population whose azimuths lie in [[0, 2 pi)],
    [update_positions] by [2 pi] restores every azimuth; the position it
    stores is the spherical conversion of the restored angles, so where the
    stored positions were derived from the stored angles, as they are in
    every population the program creates or has advanced
    ([new_satellite_derived], [update_positions_derived]), the call is the
    identity: azimuths and positions are what they were. *)
Theorem full_revolution_identity (sats : list satellite) :
  Forall phi_in_range sats ->
  map sat_phi (update_positions sats (2 * np.pi)) = map sat_phi sats /\
  (Forall position_derived sats ->
   update_positions sats (2 * np.pi) = sats).
Proof.
  intros Hr.
  assert (Hp : Forall (fun s => py_mod (sat_phi s + 2 * PI) (2 * PI)
                                = sat_phi s) sats).
  { revert Hr. apply Forall_impl. intros s Hs.
    apply py_mod_period; [apply two_pi_pos | exact Hs]. }
  split.
  - rewrite update_positions_map, map_map. apply map_ext_Forall. exact Hp.
  - intros Hd. apply update_positions_fixed; assumption.
Qed.

Lemma full_revolution_identity_witness :
  map sat_phi (update_positions [sat_a] (2 * np.pi)) = map sat_phi [sat_a] /\
  update_positions [sat_a] (2 * np.pi) = [sat_a].
Proof.
  assert (Hr : Forall phi_in_range [sat_a])
    by (constructor; [exact sat_a_in_range | constructor]).
  assert (Hd : Forall position_derived [sat_a])
    by (constructor; [exact sat_a_derived | constructor]).
  split.
  - exact (proj1 (full_revolution_identity [sat_a] Hr)).
  - exact (proj2 (full_revolution_identity [sat_a] Hr) Hd).
Defined.

(** ** The callback's effect on the globals *)

Lemma keeps_ret {S A} (a : A) : keeps_state (S := S) (ret a).
Proof. intros s. reflexivity. Qed.

Lemma keeps_raise {S A} (e : exn) : keeps_state (S := S) (A := A) (raise e).
Proof. intros s. reflexivity. Qed.

Lemma keeps_get {S} : keeps_state (S := S) get.
Proof. intros s. reflexivity. Qed.

Lemma keeps_bind {S A B} (m : M S A) (k : A -> M S B) :
  keeps_state m -> (forall a, keeps_state (k a)) ->
  keeps_state (x <- m ;; k x).
Proof.
  intros Hm Hk s. unfold bind. specialize (Hm s).
  destruct (m s) as [[a | e] s']; simpl in *; subst s'.
  - apply Hk.
  - reflexivity.
Qed.

Lemma keeps_for_each {S A B} (xs : list A) (body : B -> A -> M S B) :
  (forall acc x, keeps_state (body acc x)) ->
  forall acc, keeps_state (for_each xs body acc).
Proof.
  intros Hb. induction xs as [| x xs IH]; intros acc; simpl.
  - apply keeps_ret.
  - apply keeps_bind; [apply Hb | exact IH].
Qed.

Lemma keeps_getitem {S} (sats : list satellite) (i : nat) :
  keeps_state (S := S) (getitem sats i).
Proof.
  unfold getitem. destruct (nth_error sats i).
  - apply keeps_ret.
  - apply keeps_raise.
Qed.

Lemma modify_then {S A} (f : S -> S) (k : M S A) (s : S) :
  keeps_state k -> snd ((modify f ;;; k) s) = f s.
Proof. intros Hk. unfold bind, modify. apply Hk. Qed.

(** Whatever its arguments, and whether it returns or raises,
    [make_figure] leaves the population advanced by half a degree. *)
Lemma make_figure_state (threshold : R) (clickData : option click_data)
    (preset : string) (g : globals) :
  snd (make_figure threshold clickData preset g)
  = {| all_sats := update_positions (all_sats g) (np.radians 0.5) |}.
Proof.
  unfold make_figure.
  rewrite (modify_then
             (fun g => {| all_sats := update_positions (all_sats g)
                                                       (np.radians 0.5) |}));
    [reflexivity |].
  apply keeps_bind; [apply keeps_get | intros g'].
  apply keeps_bind.
  - apply keeps_for_each. intros traces [i j].
    apply keeps_bind; [apply keeps_getitem | intros a].
    apply keeps_bind; [apply keeps_getitem | intros b].
    apply keeps_ret.
  - intros traces. destruct (clicked_points clickData) as [| p ps].
    + destruct (preset =? "default")%string; [apply keeps_ret |].
      destruct (lookup preset cams); apply keeps_ret.
    + apply keeps_bind.
      * destruct (customdata p); [apply keeps_ret | apply keeps_raise].
      * intros pid. destruct (find _ (all_sats g')); apply keeps_ret.
Qed.

Lemma serve_all_sats (fs : list firing) (g : globals) :
  all_sats (serve fs g)
  = advance_many (all_sats g) (map (fun _ => np.radians 0.5) fs).
Proof.
  revert g. induction fs as [| f fs IH]; intros g; simpl.
  - reflexivity.
  - rewrite IH. unfold update_graph. rewrite make_figure_state. reflexivity.
Qed.

(** C6: any sequence of [update_positions] calls, and any sequence of
    callback firings, leaves the population with the same satellites in the
    same order, each with the id, type, polar angle and radius it had. *)
Theorem ticks_keep_frame (sats : list satellite) (dphis : list R)
    (fs : list firing) (g : globals) :
  map frame (advance_many sats dphis) = map frame sats /\
  map frame (all_sats (serve fs g)) = map frame (all_sats g).
Proof.
  split.
  - apply advance_many_frame.
  - rewrite serve_all_sats. apply advance_many_frame.
Qed.

(** C10: whatever fired the callback and whatever it passes, a call of
    [update_graph] leaves the global population as [update_positions] by
    [np.radians(0.5)] makes it: every azimuth becomes
    [(phi + 0.5 * pi / 180) mod 2 pi].  No argument of [make_figure]
    avoids the update. *)
Theorem every_figure_advances (n_intervals : Z)
    (clickData : option click_data) (threshold : R) (preset : string)
    (g : globals) :
  let g' := snd (update_graph n_intervals clickData threshold preset g) in
  g' = snd (make_figure threshold clickData preset g) /\
  all_sats g' = update_positions (all_sats g) (np.radians 0.5) /\
  map sat_phi (all_sats g')
  = map (fun s => py_mod (sat_phi s + 0.5 * (PI / 180)) (2 * PI))
        (all_sats g).
Proof.
  unfold update_graph. cbv zeta. rewrite make_figure_state. simpl.
  split; [reflexivity | split; [reflexivity |]].
  rewrite update_positions_map, map_map. reflexivity.
Qed.

(** ** The populations the program reaches *)

Lemma norm_spherical_abs (r th ph : R) :
  np.linalg_norm (r * sin th * cos ph, r * sin th * sin ph, r * cos th)
  = Rabs r.
Proof.
  destruct (Rle_dec 0 r) as [Hr | Hr].
  - rewrite norm_spherical, Rabs_right by lra. reflexivity.
  - replace (np.linalg_norm
               (r * sin th * cos ph, r * sin th * sin ph, r * cos th))
      with (np.linalg_norm
              (- r * sin th * cos ph, - r * sin th * sin ph, - r * cos th)).
    + rewrite norm_spherical, Rabs_left by lra. reflexivity.
    + unfold np.linalg_norm. f_equal. ring.
Qed.

(** The population the module creates, and every population the server
    turns it into, has 100 satellites, all with the azimuth in
    [[0, 2 pi)], the position derived from the angles, and on their shell:
    the hypotheses of [update_positions_spec] and
    [full_revolution_identity] hold in every state of a run. *)
Lemma reachable_population (g : rng) (fs : list firing) :
  rng_ok g ->
  exists gl g',
    module_init g = (Ok gl, g') /\
    length (all_sats (serve fs gl)) = 100%nat /\
    Forall phi_in_range (all_sats (serve fs gl)) /\
    Forall position_derived (all_sats (serve fs gl)) /\
    Forall on_shell (all_sats (serve fs gl)).
Proof.
  intros Hg. unfold module_init, bind.
  rewrite generate_satellites_eq. cbn [draws cursor].
  rewrite generate_satellites_eq. cbn [draws cursor]. unfold ret.
  do 2 eexists. split; [reflexivity |].
  rewrite serve_all_sats. cbn [all_sats].
  set (leo := map (drawn LEO_ALTITUDE "LEO" (draws g) (cursor g)) _).
  set (geo := map (drawn GEO_ALTITUDE "GEO" (draws g) _) _).
  set (ds := map _ fs).
  assert (Hlen : length (advance_many (leo ++ geo) ds) = 100%nat).
  { transitivity (length (map frame (advance_many (leo ++ geo) ds))).
    - symmetry. apply length_map.
    - rewrite advance_many_frame, length_map, length_app.
      unfold leo, geo. rewrite !length_map, !length_seq. reflexivity. }
  assert (Hready : Forall shell_ready (leo ++ geo)).
  { apply Forall_app. split; apply generated_Forall;
      intros i u1 u2 k _ _; (split; [apply new_satellite_derived |]);
      simpl; unfold EARTH_RADIUS, LEO_ALTITUDE, GEO_ALTITUDE; lra. }
  assert (Hrange : Forall phi_in_range (leo ++ geo)).
  { apply Forall_app. split; apply generated_Forall;
      intros i u1 u2 k _ ->; apply new_satellite_in_range, Hg. }
  assert (Hready' : Forall shell_ready (advance_many (leo ++ geo) ds)).
  { apply advance_many_Forall; [| exact Hready].
    intros l d. apply update_positions_shell_ready. }
  split; [exact Hlen | split; [| split]].
  - apply advance_many_Forall; [| exact Hrange].
    intros l d _. apply update_positions_in_range.
  - revert Hready'. apply Forall_impl. intros s [Hd _]. exact Hd.
  - apply shell_ready_on_shell, Hready'.
Qed.

(** Below the centre the radius is negative and the norm is its opposite:
    the bound on the altitude in [position_on_shell] cannot be dropped. *)
Remark negative_radius_off_shell :
  exists s g',
    generate_satellites 1 (-7000) "LEO" zero_rng = (Ok [s], g') /\
    sat_r s = -629 /\
    np.linalg_norm (sat_x s, sat_y s, sat_z s) = 629.
Proof.
  rewrite generate_satellites_eq. cbn [Z.to_nat Pos.to_nat Pos.iter_op seq map].
  do 2 eexists. split; [reflexivity |].
  unfold drawn, new_satellite. cbn [sat_r sat_x sat_y sat_z].
  unfold np.sin, np.cos. rewrite norm_spherical_abs.
  replace (EARTH_RADIUS + -7000) with (-629) by (unfold EARTH_RADIUS; lra).
  split; [reflexivity |]. rewrite Rabs_left by lra. lra.
Qed.

(** * Further properties of the code *)

(** ** The remainder and the trigonometric functions *)

Lemma Int_part_minus_Z (x : R) (k : Z) :
  Int_part (x - IZR k) = (Int_part x - k)%Z.
Proof.
  symmetry. apply Int_part_spec.
  destruct (base_Int_part x) as [Hlo Hhi].
  rewrite minus_IZR. lra.
Qed.

Lemma py_mod_absorb (a c b : R) :
  0 < b -> py_mod (py_mod a b + c) b = py_mod (a + c) b.
Proof.
  intros Hb. unfold py_mod. set (k := Int_part (a / b)).
  replace ((a - IZR k * b + c) / b) with ((a + c) / b - IZR k)
    by (field; lra).
  rewrite Int_part_minus_Z, minus_IZR. ring.
Qed.

Lemma py_mod_multiple (a b : R) (k : Z) :
  0 < b -> py_mod (a + IZR k * b) b = py_mod a b.
Proof.
  intros Hb. unfold py_mod.
  replace ((a + IZR k * b) / b) with (a / b - IZR (- k)).
  - rewrite Int_part_minus_Z, minus_IZR, opp_IZR. ring.
  - rewrite opp_IZR. field. lra.
Qed.

Lemma cos_period_Z (x : R) (k : Z) : cos (x + IZR k * (2 * PI)) = cos x.
Proof.
  destruct (Z_le_gt_dec 0 k) as [Hk | Hk].
  - rewrite <- (Z2Nat.id k Hk), <- INR_IZR_INZ.
    rewrite <- (cos_period x (Z.to_nat k)). f_equal. ring.
  - rewrite <- (cos_period (x + IZR k * (2 * PI)) (Z.to_nat (- k))).
    f_equal. rewrite INR_IZR_INZ, Z2Nat.id, opp_IZR by lia. ring.
Qed.

Lemma sin_period_Z (x : R) (k : Z) : sin (x + IZR k * (2 * PI)) = sin x.
Proof.
  destruct (Z_le_gt_dec 0 k) as [Hk | Hk].
  - rewrite <- (Z2Nat.id k Hk), <- INR_IZR_INZ.
    rewrite <- (sin_period x (Z.to_nat k)). f_equal. ring.
  - rewrite <- (sin_period (x + IZR k * (2 * PI)) (Z.to_nat (- k))).
    f_equal. rewrite INR_IZR_INZ, Z2Nat.id, opp_IZR by lia. ring.
Qed.

Lemma cos_py_mod (x : R) : cos (py_mod x (2 * PI)) = cos x.
Proof.
  unfold py_mod.
  rewrite <- (cos_period_Z x (- Int_part (x / (2 * PI)))).
  f_equal. rewrite opp_IZR. ring.
Qed.

Lemma sin_py_mod (x : R) : sin (py_mod x (2 * PI)) = sin x.
Proof.
  unfold py_mod.
  rewrite <- (sin_period_Z x (- Int_part (x / (2 * PI)))).
  f_equal. rewrite opp_IZR. ring.
Qed.

(** ** How updates compose *)

Lemma advanced_advanced (s : satellite) (d1 d2 : R) :
  advanced (advanced s d1) d2 = advanced s (d1 + d2).
Proof.
  assert (E : py_mod (py_mod (sat_phi s + d1) (2 * PI) + d2) (2 * PI)
              = py_mod (sat_phi s + (d1 + d2)) (2 * PI)).
  { rewrite py_mod_absorb by apply two_pi_pos. f_equal. ring. }
  apply satellite_eq; simpl; rewrite ?E; reflexivity.
Qed.

Lemma update_positions_twice (sats : list satellite) (d1 d2 : R) :
  update_positions (update_positions sats d1) d2
  = update_positions sats (d1 + d2).
Proof.
  rewrite !update_positions_map, map_map. apply map_ext.
  intros s. apply advanced_advanced.
Qed.

Lemma advance_many_cons (sats : list satellite) (d : R) (ds : list R) :
  advance_many sats (d :: ds)
  = update_positions sats (fold_right Rplus 0 (d :: ds)).
Proof.
  unfold advance_many. revert sats d.
  induction ds as [| d' ds IH]; intros sats d; simpl.
  - f_equal. ring.
  - simpl in IH. rewrite IH, update_positions_twice. reflexivity.
Qed.

(** X1: two updates in a row are one update by the sum of the steps, and
    so is any non-empty sequence of updates. *)
Theorem update_positions_compose (sats : list satellite) (d1 d2 : R)
    (ds : list R) :
  update_positions (update_positions sats d1) d2
  = update_positions sats (d1 + d2) /\
  advance_many sats (d1 :: ds)
  = update_positions sats (fold_right Rplus 0 (d1 :: ds)).
Proof.
  split; [apply update_positions_twice | apply advance_many_cons].
Qed.

Lemma update_positions_shift (sats : list satellite) (dphi : R) (k : Z) :
  update_positions sats (dphi + IZR k * (2 * PI))
  = update_positions sats dphi.
Proof.
  rewrite !update_positions_map. apply map_ext. intros s.
  assert (E : py_mod (sat_phi s + (dphi + IZR k * (2 * PI))) (2 * PI)
              = py_mod (sat_phi s + dphi) (2 * PI)).
  { rewrite <- Rplus_assoc. apply py_mod_multiple, two_pi_pos. }
  apply satellite_eq; simpl; rewrite ?E; reflexivity.
Qed.

(** X2: the update depends on the step only modulo a full turn: steps that
    differ by a whole number of turns give the same population, whatever
    the population was. *)
Theorem update_positions_step_periodic (sats : list satellite) (dphi : R)
    (k : Z) :
  update_positions sats (dphi + IZR k * (2 * np.pi))
  = update_positions sats dphi.
Proof. apply update_positions_shift. Qed.

(** X3: an update leaves the population normalised: a further update by
    zero, or by any whole number of turns, changes nothing, with no
    condition on the population the first update started from. *)
Theorem update_positions_then_turns (sats : list satellite) (dphi : R)
    (k : Z) :
  update_positions (update_positions sats dphi) 0
  = update_positions sats dphi /\
  update_positions (update_positions sats dphi) (IZR k * (2 * np.pi))
  = update_positions sats dphi.
Proof.
  split.
  - rewrite update_positions_twice. f_equal. ring.
  - rewrite update_positions_twice. apply update_positions_shift.
Qed.

(** ** The period of the animation *)

Lemma sum_constant {A} (c : R) (xs : list A) :
  fold_right Rplus 0 (map (fun _ => c) xs) = INR (length xs) * c.
Proof.
  induction xs as [| x xs IH].
  - simpl. ring.
  - cbn [map fold_right length]. rewrite IH, S_INR. ring.
Qed.

(** X4: each firing turns the population by half a degree, so 720 firings
    turn it by a full circle: on a population whose azimuths lie in
    [[0, 2 pi)] and whose positions are derived, as in every state of a
    run, 720 firings of the callback leave the globals exactly as they
    were, whatever the firings pass. *)
Theorem serve_full_circle (fs : list firing) (g : globals) :
  length fs = 720%nat ->
  Forall phi_in_range (all_sats g) ->
  Forall position_derived (all_sats g) ->
  serve fs g = g.
Proof.
  intros Hlen Hr Hd.
  assert (E : all_sats (serve fs g) = all_sats g).
  { rewrite serve_all_sats. destruct fs as [| f fs]; [discriminate |].
    cbn [map]. rewrite advance_many_cons.
    change (np.radians 0.5 :: map (fun _ => np.radians 0.5) fs)
      with (map (fun _ : firing => np.radians 0.5) (f :: fs)).
    rewrite sum_constant, Hlen.
    replace (INR 720 * np.radians 0.5) with (2 * PI).
    - apply update_positions_fixed; [exact Hd |].
      revert Hr. apply Forall_impl. intros s Hs.
      apply py_mod_period; [apply two_pi_pos | exact Hs].
    - rewrite INR_IZR_INZ. change (Z.of_nat 720) with 720%Z.
      unfold np.radians. lra. }
  destruct (serve fs g) as [l], g as [l0]. simpl in E. rewrite E.
  reflexivity.
Qed.

Lemma serve_full_circle_witness :
  serve (repeat {| f_n_intervals := 0; f_clickData := None;
                   f_threshold := 100; f_preset := "default" |} 720)
        {| all_sats := [sat_a] |}
  = {| all_sats := [sat_a] |}.
Proof.
  apply (serve_full_circle _ {| all_sats := [sat_a] |}).
  - apply repeat_length.
  - constructor; [exact sat_a_in_range | constructor].
  - constructor; [exact sat_a_derived | constructor].
Defined.

(** ** The update is one rotation of the whole population *)

Lemma advanced_dist (a b : satellite) (dphi : R) :
  position_derived a -> position_derived b ->
  dist (advanced a dphi) (advanced b dphi) = dist a b.
Proof.
  intros (Hxa & Hya & Hza) (Hxb & Hyb & Hzb).
  unfold dist, np.linalg_norm. cbn [advanced sat_x sat_y sat_z].
  rewrite !cos_py_mod, !sin_py_mod, !cos_plus, !sin_plus.
  rewrite Hxa, Hya, Hza, Hxb, Hyb, Hzb. f_equal.
  pose proof (sin2_cos2 dphi) as Hd. unfold Rsqr in Hd.
  set (pa := sat_r a * sin (sat_theta a)).
  set (pb := sat_r b * sin (sat_theta b)).
  set (ca := cos (sat_phi a)). set (sa := sin (sat_phi a)).
  set (cb := cos (sat_phi b)). set (sb := sin (sat_phi b)).
  set (za := sat_r a * cos (sat_theta a)).
  set (zb := sat_r b * cos (sat_theta b)).
  set (cd := cos dphi) in *. set (sd := sin dphi) in *.
  transitivity
    (((pa * ca - pb * cb) * (pa * ca - pb * cb)
      + (pa * sa - pb * sb) * (pa * sa - pb * sb)) * (sd * sd + cd * cd)
     + (za - zb) * (za - zb)).
  - ring.
  - rewrite Hd. ring.
Qed.

(** X5: the update turns every satellite about the polar axis by the same
    angle, so it keeps the distance between any two satellites whose
    positions were derived. *)
Theorem update_positions_keeps_dist (sats : list satellite) (dphi : R)
    (i j : nat) (a b a' b' : satellite) :
  Forall position_derived sats ->
  nth_error sats i = Some a -> nth_error sats j = Some b ->
  nth_error (update_positions sats dphi) i = Some a' ->
  nth_error (update_positions sats dphi) j = Some b' ->
  dist a' b' = dist a b.
Proof.
  intros Hd Ha Hb Ha' Hb'. rewrite Forall_forall in Hd.
  rewrite update_positions_map, nth_error_map in Ha', Hb'.
  rewrite Ha in Ha'. rewrite Hb in Hb'. simpl in Ha', Hb'.
  injection Ha' as <-. injection Hb' as <-.
  apply advanced_dist; apply Hd; eapply nth_error_In; eassumption.
Qed.

Lemma update_positions_keeps_dist_witness :
  dist (advanced sat_a 1) (advanced sat_c 1) = dist sat_a sat_c.
Proof.
  apply (update_positions_keeps_dist [sat_a; sat_c] 1 0 1 sat_a sat_c).
  - constructor; [exact sat_a_derived |].
    constructor; [| constructor].
    unfold position_derived. simpl. rewrite sin_0, cos_0. repeat split; ring.
  - reflexivity.
  - reflexivity.
  - reflexivity.
  - reflexivity.
Defined.

Lemma close_update (sats : list satellite) (dphi threshold : R) (i j : nat) :
  Forall position_derived sats ->
  close (update_positions sats dphi) threshold i j
  = close sats threshold i j.
Proof.
  intros Hd. rewrite Forall_forall in Hd. unfold close.
  rewrite update_positions_map, !nth_error_map.
  destruct (nth_error sats i) as [a |] eqn:Ha; [| reflexivity].
  destruct (nth_error sats j) as [b |] eqn:Hb; [| reflexivity].
  simpl. rewrite advanced_dist; [reflexivity | |];
    apply Hd; eapply nth_error_In; eassumption.
Qed.

Lemma detect_collisions_update (sats : list satellite) (dphi threshold : R) :
  Forall position_derived sats ->
  detect_collisions (update_positions sats dphi) threshold
  = detect_collisions sats threshold.
Proof.
  intros Hd. rewrite !detect_collisions_eq, update_positions_length.
  apply flat_map_ext. intros i. unfold links_from.
  rewrite update_positions_length. f_equal.
  apply filter_ext. intros j. apply close_update, Hd.
Qed.

Lemma detect_collisions_advance_many (dphis : list R) (threshold : R)
    (sats : list satellite) :
  Forall position_derived sats ->
  detect_collisions (advance_many sats dphis) threshold
  = detect_collisions sats threshold.
Proof.
  unfold advance_many. revert sats.
  induction dphis as [| d ds IH]; intros sats Hd; simpl.
  - reflexivity.
  - rewrite IH by apply update_positions_derived.
    apply detect_collisions_update, Hd.
Qed.



Lemma module_init_eq (g : rng) :
  module_init g
  = (Ok {| all_sats := created g |},
     {| draws := draws g;
        cursor := cursor g + 2 * Z.to_nat NUM_LEO + 2 * Z.to_nat NUM_GEO |}).
Proof.
  unfold module_init, bind.
  rewrite generate_satellites_eq. cbn [draws cursor].
  rewrite generate_satellites_eq. cbn [draws cursor]. reflexivity.
Qed.

Lemma created_derived (g : rng) : Forall position_derived (created g).
Proof.
  apply Forall_app. split; apply generated_Forall;
    intros i u1 u2 k _ _; apply new_satellite_derived.
Qed.

(** X7: in a run of the program the set of links never changes: the module
    creates its population, and after any sequence of firings the scan
    reports, for every threshold, exactly the links it reports on the
    population as created. *)
Theorem links_constant_over_run (g : rng) (fs : list firing)
    (threshold : R) :
  exists gl g',
    module_init g = (Ok gl, g') /\
    detect_collisions (all_sats (serve fs gl)) threshold
    = detect_collisions (all_sats gl) threshold.
Proof.
  rewrite module_init_eq. do 2 eexists. split; [reflexivity |].
  rewrite serve_all_sats. cbn [all_sats].
  apply detect_collisions_advance_many, created_derived.
Qed.

(** ** The satellites [generate_satellites] makes *)

Lemma str_inj (n m : Z) : str n = str m -> n = m.
Proof.
  unfold str. intros H. apply to_int_inj.
  assert (Hnil : forall z, Z.to_int z <> Decimal.Pos Decimal.Nil /\
                           Z.to_int z <> Decimal.Neg Decimal.Nil).
  { intros [| p | p]; simpl; split; try discriminate;
      intros E; injection E as E; exact (Unsigned.to_uint_nonnil p E). }
  apply (f_equal NilZero.int_of_string) in H.
  rewrite !NilZero.isi in H by apply Hnil.
  injection H as H. exact H.
Qed.

Lemma append_inj (p a b : string) : (p ++ a = p ++ b)%string -> a = b.
Proof.
  induction p as [| c p IH]; simpl; intros H.
  - exact H.
  - injection H as H. apply IH, H.
Qed.

Lemma drawn_id (altitude : R) (label_prefix : string) (d : nat -> R)
    (c0 k : nat) :
  sat_id (drawn altitude label_prefix d c0 k)
  = (label_prefix ++ "_" ++ str (Z.of_nat k + 1))%string.
Proof. reflexivity. Qed.

Lemma drawn_ids_NoDup (altitude : R) (label_prefix : string) (d : nat -> R)
    (c0 start n : nat) :
  NoDup (map sat_id (map (drawn altitude label_prefix d c0) (seq start n))).
Proof.
  rewrite map_map. apply NoDup_map_NoDup_ForallPairs; [| apply seq_NoDup].
  intros k k' _ _. rewrite !drawn_id. intros H.
  apply append_inj, append_inj, str_inj in H. lia.
Qed.

Lemma nth_error_drawn (altitude : R) (label_prefix : string) (d : nat -> R)
    (c0 n k : nat) (s : satellite) :
  nth_error (map (drawn altitude label_prefix d c0) (seq 0 n)) k = Some s ->
  (k < n)%nat /\ s = drawn altitude label_prefix d c0 k.
Proof.
  rewrite nth_error_map, nth_error_seq.
  destruct (k <? n)%nat eqn:E; simpl; [| discriminate].
  intros H. injection H as <-. apply Nat.ltb_lt in E. auto.
Qed.

(** X8: the satellites of one call carry pairwise distinct ids: the one
    at index [k] of the result has the id [label_prefix_(k+1)] and the type
    [label_prefix], for every count, altitude and generator. *)
Theorem generate_satellites_ids (num : Z) (altitude : R)
    (label_prefix : string) (g : rng) :
  exists sats g',
    generate_satellites num altitude label_prefix g = (Ok sats, g') /\
    NoDup (map sat_id sats) /\
    (forall k s,
        nth_error sats k = Some s ->
        sat_id s = (label_prefix ++ "_" ++ str (Z.of_nat k + 1))%string /\
        sat_type s = label_prefix).
Proof.
  rewrite generate_satellites_eq. do 2 eexists. split; [reflexivity |].
  split.
  - apply drawn_ids_NoDup.
  - intros k s Hs. apply nth_error_drawn in Hs. destruct Hs as [_ ->].
    split; reflexivity.
Qed.

Lemma generate_satellites_ids_witness :
  exists sats g',
    generate_satellites 2 2000 "LEO" zero_rng = (Ok sats, g') /\
    map sat_id sats = ["LEO_1"; "LEO_2"]%string.
Proof.
  destruct (generate_satellites_ids 2 2000 "LEO" zero_rng)
    as (sats & g' & E & _ & _).
  exists sats, g'. split; [exact E |].
  rewrite generate_satellites_eq in E. injection E as <- _. reflexivity.
Defined.

(** X9: one call consumes exactly two draws per satellite and nothing
    else of the generator: the satellite at index [k] takes its polar angle
    from draw [2k] after the cursor, scaled to degrees in [0, 180], and its
    azimuth from draw [2k + 1], scaled to [0, 360]; the cursor ends
    [2 * max(num, 0)] further on, so a later call shares no draw with this
    one. *)
Theorem generate_satellites_draws (num : Z) (altitude : R)
    (label_prefix : string) (g : rng) :
  exists sats,
    generate_satellites num altitude label_prefix g
    = (Ok sats,
       {| draws := draws g;
          cursor := cursor g + 2 * Z.to_nat (Z.max num 0) |}) /\
    (forall k s,
        nth_error sats k = Some s ->
        sat_theta s = np.radians (180 * draws g (cursor g + 2 * k)) /\
        sat_phi s = np.radians (360 * draws g (cursor g + 2 * k + 1))).
Proof.
  rewrite generate_satellites_eq. eexists. split.
  - replace (Z.to_nat (Z.max num 0)) with (Z.to_nat num) by lia.
    reflexivity.
  - intros k s Hs. apply nth_error_drawn in Hs. destruct Hs as [_ ->].
    unfold drawn, new_satellite. cbn [sat_theta sat_phi].
    split; f_equal; ring.
Qed.

Lemma generate_satellites_draws_witness :
  exists sats,
    generate_satellites 3 2000 "LEO" zero_rng
    = (Ok sats, {| draws := draws zero_rng; cursor := 6 |}) /\
    length sats = 3%nat.
Proof.
  destruct (generate_satellites_draws 3 2000 "LEO" zero_rng)
    as (sats & E & _).
  exists sats. split; [exact E |].
  rewrite generate_satellites_eq in E. injection E as <-. reflexivity.
Defined.

Lemma new_satellite_theta (altitude : R) (label_prefix : string) (i : Z)
    (u1 u2 : R) :
  0 <= u1 < 1 ->
  theta_in_range (new_satellite altitude label_prefix i u1 u2).
Proof.
  intros [H0 H1]. unfold theta_in_range, new_satellite, np.radians. simpl.
  pose proof PI_RGT_0 as Hpi.
  replace ((0 + (180 - 0) * u1) * (PI / 180)) with (u1 * PI) by field.
  split; nra.
Qed.

(** X10: with draws in [[0, 1)], the polar angle of every created
    satellite lies in [[0, pi)], and it is still the same angle after any
    sequence of updates; the height [z] the updates store is
    [r * cos(theta)], the same after every update. *)
Theorem polar_angle_in_range (num : Z) (altitude : R)
    (label_prefix : string) (g : rng) (dphis : list R) (d : R) :
  rng_ok g ->
  exists sats g',
    generate_satellites num altitude label_prefix g = (Ok sats, g') /\
    Forall theta_in_range sats /\
    map sat_theta (advance_many sats dphis) = map sat_theta sats /\
    map sat_z (advance_many sats (d :: dphis)) = map sat_z sats.
Proof.
  intros Hg. rewrite generate_satellites_eq. do 2 eexists.
  split; [reflexivity |].
  set (sats := map _ _).
  assert (Hth : forall l ds,
             map sat_theta (advance_many l ds) = map sat_theta l).
  { intros l ds.
    pose proof (advance_many_frame ds l) as Hf.
    apply (f_equal (map (fun f : string * string * R * R => snd (fst f))))
      in Hf.
    rewrite !map_map in Hf. exact Hf. }
  split; [| split].
  - apply generated_Forall. intros i u1 u2 k -> _.
    apply new_satellite_theta, Hg.
  - apply Hth.
  - rewrite advance_many_cons, update_positions_map, map_map.
    apply map_ext_Forall. unfold sats.
    apply generated_Forall. intros i u1 u2 k _ _. reflexivity.
Qed.

Lemma polar_angle_in_range_witness :
  exists sats g',
    generate_satellites 2 2000 "LEO" zero_rng = (Ok sats, g') /\
    Forall theta_in_range sats /\
    map sat_theta (advance_many sats [1]) = map sat_theta sats /\
    map sat_z (advance_many sats [2; 1]) = map sat_z sats.
Proof.
  apply (polar_angle_in_range 2 2000 "LEO" zero_rng [1] 2).
  exact zero_rng_ok.
Defined.

(** ** The geometry of the scan *)

Lemma sumsq_nonneg (a b c : R) : 0 <= a * a + b * b + c * c.
Proof.
  pose proof (Rle_0_sqr a). pose proof (Rle_0_sqr b).
  pose proof (Rle_0_sqr c). unfold Rsqr in *. lra.
Qed.

Lemma norm_triangle (xa ya za xb yb zb : R) :
  Rabs (np.linalg_norm (xa, ya, za) - np.linalg_norm (xb, yb, zb))
  <= np.linalg_norm (xa - xb, ya - yb, za - zb)
  <= np.linalg_norm (xa, ya, za) + np.linalg_norm (xb, yb, zb).
Proof.
  unfold np.linalg_norm.
  set (A := xa * xa + ya * ya + za * za).
  set (B := xb * xb + yb * yb + zb * zb).
  set (D := (xa - xb) * (xa - xb) + (ya - yb) * (ya - yb)
            + (za - zb) * (za - zb)).
  set (dot := xa * xb + ya * yb + za * zb).
  assert (HA : 0 <= A) by apply sumsq_nonneg.
  assert (HB : 0 <= B) by apply sumsq_nonneg.
  assert (HD : 0 <= D) by apply sumsq_nonneg.
  assert (HDe : D = A + B - 2 * dot) by (unfold D, A, B, dot; ring).
  assert (HCS : dot * dot <= A * B).
  { assert (E : A * B - dot * dot
                = (xa * yb - ya * xb) * (xa * yb - ya * xb)
                  + (xa * zb - za * xb) * (xa * zb - za * xb)
                  + (ya * zb - za * yb) * (ya * zb - za * yb))
      by (unfold A, B, dot; ring).
    assert (0 <= A * B - dot * dot) by (rewrite E; apply sumsq_nonneg).
    lra. }
  pose proof (sqrt_pos A) as Hna. pose proof (sqrt_pos B) as Hnb.
  pose proof (sqrt_pos D) as Hnd.
  pose proof (sqrt_sqrt A HA) as HnA. pose proof (sqrt_sqrt B HB) as HnB.
  pose proof (sqrt_sqrt D HD) as HnD.
  set (na := sqrt A) in *. set (nb := sqrt B) in *. set (nd := sqrt D) in *.
  assert (Hp : 0 <= na * nb) by (apply Rmult_le_pos; assumption).
  assert (Hsq : dot * dot <= (na * nb) * (na * nb)).
  { replace (na * nb * (na * nb)) with ((na * na) * (nb * nb)) by ring.
    rewrite HnA, HnB. exact HCS. }
  assert (H1 : dot <= na * nb) by nra.
  assert (H2 : - dot <= na * nb) by nra.
  split.
  - apply Rabs_le. split; nra.
  - nra.
Qed.

Lemma dist_shell_bounds (a b : satellite) :
  on_shell a -> on_shell b ->
  Rabs (sat_r a - sat_r b) <= dist a b <= sat_r a + sat_r b.
Proof.
  unfold on_shell, dist. intros <- <-. apply norm_triangle.
Qed.

(** X11: two satellites that lie on their shells are never linked under a
    threshold up to the gap between the two radii: the scan leaves out
    every pair whose shells are at least the threshold apart. *)
Theorem detect_collisions_shell_gap (sats : list satellite) (threshold : R)
    (i j : nat) (a b : satellite) :
  nth_error sats i = Some a -> nth_error sats j = Some b ->
  on_shell a -> on_shell b ->
  threshold <= Rabs (sat_r a - sat_r b) ->
  ~ In (i, j) (detect_collisions sats threshold).
Proof.
  intros Ha Hb Hsa Hsb Ht Hin.
  apply in_detect_collisions in Hin. destruct Hin as [_ Hc].
  apply close_true in Hc. destruct Hc as (a' & b' & Ha' & Hb' & Hlt).
  rewrite Ha in Ha'. rewrite Hb in Hb'.
  injection Ha' as <-. injection Hb' as <-.
  pose proof (dist_shell_bounds a b Hsa Hsb). lra.
Qed.

Lemma sat_c_on_shell : on_shell sat_c.
Proof.
  unfold on_shell, np.linalg_norm. simpl.
  replace (0 * 0 + 0 * 0 + 8374 * 8374) with (8374 * 8374) by ring.
  apply sqrt_square. lra.
Qed.

Lemma sat_a_on_shell : on_shell sat_a.
Proof.
  unfold on_shell, np.linalg_norm. simpl.
  replace (0 * 0 + 0 * 0 + 8371 * 8371) with (8371 * 8371) by ring.
  apply sqrt_square. lra.
Qed.

Lemma detect_collisions_shell_gap_witness :
  ~ In (0, 1)%nat (detect_collisions [sat_a; sat_c] 3).
Proof.
  apply (detect_collisions_shell_gap [sat_a; sat_c] 3 0 1 sat_a sat_c).
  - reflexivity.
  - reflexivity.
  - exact sat_a_on_shell.
  - exact sat_c_on_shell.
  - simpl. rewrite Rabs_left; lra.
Defined.

(** X12: two satellites that lie on their shells are linked under every
    threshold above the sum of their radii, wherever on the shells they
    are. *)
Theorem detect_collisions_beyond_diameter (sats : list satellite)
    (threshold : R) (i j : nat) (a b : satellite) :
  (i < j)%nat ->
  nth_error sats i = Some a -> nth_error sats j = Some b ->
  on_shell a -> on_shell b ->
  sat_r a + sat_r b < threshold ->
  In (i, j) (detect_collisions sats threshold).
Proof.
  intros Hij Ha Hb Hsa Hsb Ht.
  apply in_detect_collisions. split.
  - split; [exact Hij |]. apply nth_error_Some. rewrite Hb. discriminate.
  - apply close_true. exists a, b. repeat split; try assumption.
    pose proof (dist_shell_bounds a b Hsa Hsb). lra.
Qed.

Lemma detect_collisions_beyond_diameter_witness :
  In (0, 1)%nat (detect_collisions [sat_a; sat_c] 20000).
Proof.
  apply (detect_collisions_beyond_diameter [sat_a; sat_c] 20000 0 1
                                           sat_a sat_c).
  - lia.
  - reflexivity.
  - reflexivity.
  - exact sat_a_on_shell.
  - exact sat_c_on_shell.
  - simpl. lra.
Defined.

(** X13: a population of fewer than two satellites has no link, whatever
    the threshold. *)
Theorem detect_collisions_few (sats : list satellite) (threshold : R) :
  (length sats <= 1)%nat -> detect_collisions sats threshold = [].
Proof.
  intros Hlen.
  destruct (detect_collisions sats threshold) as [| [i j] l] eqn:E.
  - reflexivity.
  - assert (Hin : In (i, j) (detect_collisions sats threshold))
      by (rewrite E; left; reflexivity).
    apply in_detect_collisions in Hin. lia.
Qed.

Lemma detect_collisions_few_witness :
  detect_collisions [sat_a] 1000000 = [].
Proof. apply (detect_collisions_few [sat_a] 1000000). simpl. lia. Defined.

(** ** The order of the links *)

Lemma seq_sorted (len start : nat) : StronglySorted lt (seq start len).
Proof.
  revert start. induction len as [| len IH]; intros start; simpl.
  - constructor.
  - constructor; [apply IH |].
    apply Forall_forall. intros k Hk. apply in_seq in Hk. lia.
Qed.

Lemma filter_sorted {A} (R : A -> A -> Prop) (f : A -> bool) (l : list A) :
  StronglySorted R l -> StronglySorted R (filter f l).
Proof.
  induction 1 as [| a l Hs IH Ha]; simpl.
  - constructor.
  - destruct (f a); [| exact IH].
    constructor; [exact IH |].
    rewrite Forall_forall in *. intros x Hx.
    apply filter_In in Hx. apply Ha, Hx.
Qed.

Lemma links_sorted (sats : list satellite) (threshold : R) (is_ : list nat) :
  StronglySorted lt is_ ->
  StronglySorted lex_lt (flat_map (links_from sats threshold) is_).
Proof.
  induction 1 as [| i is_ Hs IH Hi]; simpl.
  - constructor.
  - unfold links_from at 1.
    pose proof (filter_sorted lt (close sats threshold i) _
                  (seq_sorted (length sats - (i + 1)) (i + 1))) as Hjs.
    induction Hjs as [| j js Hjs IHjs Hj]; simpl.
    + exact IH.
    + constructor; [exact IHjs |].
      apply Forall_app. split.
      * apply Forall_map. revert Hj. apply Forall_impl.
        intros j' Hlt. right. simpl. auto.
      * apply Forall_forall. intros [i' j'] Hin.
        apply in_flat_map in Hin. destruct Hin as (k & Hk & Hin).
        unfold links_from in Hin. apply in_map_iff in Hin.
        destruct Hin as (j'' & Heq & _). injection Heq as <- <-.
        rewrite Forall_forall in Hi. left. simpl. apply Hi, Hk.
Qed.

(** X14: the links come out in the order of the two loops: strictly
    increasing in the first index and, for one first index, strictly
    increasing in the second. *)
Theorem detect_collisions_sorted (sats : list satellite) (threshold : R) :
  StronglySorted lex_lt (detect_collisions sats threshold).
Proof.
  rewrite detect_collisions_eq. apply links_sorted, seq_sorted.
Qed.

(** ** The population of a run *)

Lemma created_nth (g : rng) (i : nat) (s : satellite) :
  nth_error (created g) i = Some s ->
  ((i < 50)%nat /\
   s = drawn LEO_ALTITUDE "LEO" (draws g) (cursor g) i) \/
  ((50 <= i < 100)%nat /\
   s = drawn GEO_ALTITUDE "GEO" (draws g)
             (cursor g + 2 * Z.to_nat NUM_LEO) (i - 50)).
Proof.
  unfold created. intros H.
  set (leo := map (drawn LEO_ALTITUDE "LEO" (draws g) (cursor g))
                  (seq 0 (Z.to_nat NUM_LEO))) in *.
  assert (Hlen : length leo = 50%nat).
  { unfold leo. rewrite length_map, length_seq. reflexivity. }
  destruct (lt_dec i 50) as [Hi | Hi].
  - left. rewrite nth_error_app1 in H by lia.
    apply nth_error_drawn in H. tauto.
  - right. rewrite nth_error_app2, Hlen in H by lia.
    apply nth_error_drawn in H. destruct H as [Hlt ->].
    change (Z.to_nat NUM_GEO) with 50%nat in Hlt. split; [lia | reflexivity].
Qed.

Lemma created_shell_ready (g : rng) : Forall shell_ready (created g).
Proof.
  apply Forall_app. split; apply generated_Forall;
    intros i u1 u2 k _ _; (split; [apply new_satellite_derived |]);
    simpl; unfold EARTH_RADIUS, LEO_ALTITUDE, GEO_ALTITUDE; lra.
Qed.

Lemma created_ids_NoDup (g : rng) : NoDup (map sat_id (created g)).
Proof.
  unfold created. rewrite map_app. apply NoDup_app.
  - apply drawn_ids_NoDup.
  - apply drawn_ids_NoDup.
  - intros id Hl Hg. rewrite map_map in Hl, Hg.
    apply in_map_iff in Hl. destruct Hl as (k & <- & _).
    apply in_map_iff in Hg. destruct Hg as (k' & Hg & _).
    rewrite !drawn_id in Hg. discriminate.
Qed.

Lemma advance_many_ids (sats : list satellite) (dphis : list R) :
  map sat_id (advance_many sats dphis) = map sat_id sats.
Proof.
  pose proof (advance_many_frame dphis sats) as Hf.
  apply (f_equal (map (fun f : string * string * R * R =>
                         fst (fst (fst f))))) in Hf.
  rewrite !map_map in Hf. exact Hf.
Qed.

Lemma advance_many_types (sats : list satellite) (dphis : list R) :
  map sat_type (advance_many sats dphis) = map sat_type sats.
Proof.
  pose proof (advance_many_frame dphis sats) as Hf.
  apply (f_equal (map (fun f : string * string * R * R =>
                         snd (fst (fst f))))) in Hf.
  rewrite !map_map in Hf. exact Hf.
Qed.

(** X15: in a run every satellite keeps an id of its own: after any
    sequence of firings the ids of the population are pairwise distinct,
    and the id at index [k] is [LEO_(k+1)] for the first fifty indices and
    [GEO_(k-49)] for the fifty that follow. *)
Theorem ids_unique_over_run (g : rng) (fs : list firing) :
  exists gl g',
    module_init g = (Ok gl, g') /\
    NoDup (map sat_id (all_sats (serve fs gl))) /\
    (forall k s,
        nth_error (all_sats (serve fs gl)) k = Some s ->
        ((k < 50)%nat /\
         sat_id s = ("LEO_" ++ str (Z.of_nat k + 1))%string /\
         sat_type s = "LEO") \/
        ((50 <= k < 100)%nat /\
         sat_id s = ("GEO_" ++ str (Z.of_nat (k - 50) + 1))%string /\
         sat_type s = "GEO")).
Proof.
  rewrite module_init_eq. do 2 eexists. split; [reflexivity |].
  rewrite serve_all_sats. cbn [all_sats].
  set (ds := map _ fs). split.
  - rewrite advance_many_ids. apply created_ids_NoDup.
  - intros k s Hs.
    assert (Hid : nth_error (map sat_id (created g)) k = Some (sat_id s)).
    { rewrite <- (advance_many_ids (created g) ds).
      apply map_nth_error, Hs. }
    assert (Hty : nth_error (map sat_type (created g)) k
                  = Some (sat_type s)).
    { rewrite <- (advance_many_types (created g) ds).
      apply map_nth_error, Hs. }
    rewrite nth_error_map in Hid, Hty.
    destruct (nth_error (created g) k) as [s0 |] eqn:E; [| discriminate].
    simpl in Hid, Hty. injection Hid as Hid. injection Hty as Hty.
    apply created_nth in E. destruct E as [[Hk ->] | [Hk ->]].
    + left. rewrite <- Hid, <- Hty. auto.
    + right. rewrite <- Hid, <- Hty. auto.
Qed.

Lemma ids_unique_over_run_witness :
  exists gl g',
    module_init zero_rng = (Ok gl, g') /\
    NoDup (map sat_id (all_sats (serve [] gl))).
Proof.
  destruct (ids_unique_over_run zero_rng []) as (gl & g' & H & Hnd & _).
  exists gl, g'. split; [exact H | exact Hnd].
Defined.

(** X16: in a run no link joins the two shells while the threshold is at
    most the gap between them, [GEO_ALTITUDE - LEO_ALTITUDE]: every link
    the scan reports after any sequence of firings joins two of the first
    fifty satellites or two of the last fifty. *)
Theorem no_link_between_shells (g : rng) (fs : list firing) (threshold : R)
    (i j : nat) :
  threshold <= GEO_ALTITUDE - LEO_ALTITUDE ->
  exists gl g',
    module_init g = (Ok gl, g') /\
    (In (i, j) (detect_collisions (all_sats (serve fs gl)) threshold) ->
     (j < 50)%nat \/ (50 <= i)%nat).
Proof.
  intros Ht. rewrite module_init_eq. do 2 eexists. split; [reflexivity |].
  rewrite serve_all_sats. cbn [all_sats].
  rewrite detect_collisions_advance_many by apply created_derived.
  intros Hin.
  destruct (lt_dec j 50) as [Hj | Hj]; [left; exact Hj |].
  destruct (le_dec 50 i) as [Hi | Hi]; [right; exact Hi |].
  exfalso.
  apply in_detect_collisions in Hin. destruct Hin as [_ Hc].
  apply close_true in Hc. destruct Hc as (a & b & Ha & Hb & Hlt).
  pose proof (created_shell_ready g) as Hready.
  rewrite Forall_forall in Hready.
  assert (Hsa : on_shell a).
  { destruct (Hready a (nth_error_In _ _ Ha)).
    apply derived_on_shell; assumption. }
  assert (Hsb : on_shell b).
  { destruct (Hready b (nth_error_In _ _ Hb)).
    apply derived_on_shell; assumption. }
  apply created_nth in Ha. apply created_nth in Hb.
  destruct Ha as [[_ Ea] | [Hk _]]; [| lia].
  destruct Hb as [[Hk _] | [_ Eb]]; [lia |].
  pose proof (dist_shell_bounds a b Hsa Hsb) as [Hgap _].
  assert (Hra : sat_r a = EARTH_RADIUS + LEO_ALTITUDE)
    by (rewrite Ea; reflexivity).
  assert (Hrb : sat_r b = EARTH_RADIUS + GEO_ALTITUDE)
    by (rewrite Eb; reflexivity).
  rewrite Hra, Hrb in Hgap.
  rewrite Rabs_left in Hgap;
    unfold LEO_ALTITUDE, GEO_ALTITUDE, EARTH_RADIUS in *; lra.
Qed.

Lemma no_link_between_shells_witness :
  exists gl g',
    module_init zero_rng = (Ok gl, g') /\
    (In (3, 70)%nat (detect_collisions (all_sats (serve [] gl)) 500) ->
     (70 < 50)%nat \/ (50 <= 3)%nat).
Proof.
  apply (no_link_between_shells zero_rng [] 500 3 70).
  unfold GEO_ALTITUDE, LEO_ALTITUDE. lra.
Defined.

(** ** What [make_figure] returns *)

Lemma collision_loop {S} (sats : list satellite) (links : list (nat * nat))
    (acc : list trace) (st : S) :
  (forall i j, In (i, j) links ->
               (i < length sats)%nat /\ (j < length sats)%nat) ->
  exists traces,
    for_each links
      (fun traces '(i, j) =>
         a <- getitem sats i ;;
         b <- getitem sats j ;;
         ret (traces ++
              [ Scatter3d {| tr_x := [sat_x a; sat_x b];
                             tr_y := [sat_y a; sat_y b];
                             tr_z := [sat_z a; sat_z b];
                             tr_mode := "lines";
                             tr_color := "cyan";
                             tr_size := 2;
                             tr_name := None;
                             tr_customdata := [] |} ]))
      acc st
    = (Ok (acc ++ traces), st) /\
    Forall2 (draws_link sats) links traces.
Proof.
  revert acc. induction links as [| [i j] links IH]; intros acc Hin.
  - exists []. split; [| constructor]. simpl. unfold ret.
    rewrite app_nil_r. reflexivity.
  - destruct (Hin i j (or_introl eq_refl)) as [Hi Hj].
    destruct (nth_error sats i) as [a |] eqn:Ea;
      [| apply nth_error_None in Ea; lia].
    destruct (nth_error sats j) as [b |] eqn:Eb;
      [| apply nth_error_None in Eb; lia].
    destruct (IH (acc ++ [link_trace a b])) as (traces & Eloop & Hall).
    { intros i' j' H'. apply Hin. right. exact H'. }
    exists (link_trace a b :: traces). split.
    + cbn [for_each]. unfold bind at 1. unfold bind at 1.
      unfold getitem at 1. rewrite Ea. unfold ret at 1.
      unfold bind at 1. unfold getitem at 1. rewrite Eb. unfold ret at 1.
      unfold ret at 1. fold (link_trace a b). rewrite Eloop.
      rewrite <- app_assoc. reflexivity.
    + constructor; [| exact Hall]. exists a, b. auto.
Qed.

Lemma detect_collisions_in_range (sats : list satellite) (threshold : R)
    (i j : nat) :
  In (i, j) (detect_collisions sats threshold) ->
  (i < length sats)%nat /\ (j < length sats)%nat.
Proof. intros H. apply in_detect_collisions in H. lia. Qed.

(** The whole of [make_figure]: the update, then one line per link of the
    updated population, then the click and the preset. *)
Lemma make_figure_eq (threshold : R) (g : globals) :
  let sats := update_positions (all_sats g) (np.radians 0.5) in
  exists traces,
    Forall2 (draws_link sats) (detect_collisions sats threshold) traces /\
    forall clickData preset,
      make_figure threshold clickData preset g
      = (respond (plain_figure sats traces) sats clickData preset,
         {| all_sats := sats |}).
Proof.
  intros sats.
  destruct (collision_loop (S := globals) sats
              (detect_collisions sats threshold) []
              {| all_sats := sats |}
              (detect_collisions_in_range sats threshold))
    as (traces & Eloop & Hall).
  exists traces. split; [exact Hall |]. intros clickData preset.
  unfold make_figure. unfold bind at 1. unfold modify.
  unfold bind at 1. unfold get. cbn [all_sats]. fold sats.
  unfold bind at 1. rewrite Eloop. cbn [app].
  unfold respond, plain_figure.
  destruct (clicked_points clickData) as [| p ps].
  - destruct (preset =? "default")%string; [reflexivity |].
    destruct (lookup preset cams); reflexivity.
  - unfold bind. destruct (customdata p) as [pid |]; [| reflexivity].
    unfold ret at 1.
    destruct (find _ sats); reflexivity.
Qed.

Lemma respond_data (fig0 fig : figure) (sats : list satellite)
    (clickData : option click_data) (preset : string) (inf : info) :
  respond fig0 sats clickData preset = Ok (fig, inf) ->
  (inf = info_prompt /\ data fig = data fig0) \/
  (exists p ps pid sat,
      clicked_points clickData = p :: ps /\ customdata p = Some pid /\
      find (fun s => (sat_id s =? pid)%string) sats = Some sat /\
      inf = info_satellite (sat_id sat) (sat_type sat)
                           (sat_r sat - EARTH_RADIUS) /\
      data fig = data fig0 ++ [selected_trace sat] /\
      scene_camera fig = Some (camera_on sat)).
Proof.
  unfold respond. destruct (clicked_points clickData) as [| p ps].
  - destruct (preset =? "default")%string.
    + intros H. injection H as <- <-. left. auto.
    + destruct (lookup preset cams); intros H; injection H as <- <-;
        left; auto.
  - destruct (customdata p) as [pid |] eqn:Ec; [| discriminate].
    destruct (find _ sats) as [sat |] eqn:Ef; intros H;
      injection H as <- <-.
    + right. exists p, ps, pid, sat. repeat split; auto.
    + left. auto.
Qed.

Lemma Forall2_nth_error {A B} (P : A -> B -> Prop) (l : list A)
    (l' : list B) (k : nat) (x : A) :
  Forall2 P l l' -> nth_error l k = Some x ->
  exists y, nth_error l' k = Some y /\ P x y.
Proof.
  intros H. revert k. induction H as [| a b l l' Hab _ IH]; intros k Hk.
  - destruct k; discriminate.
  - destruct k as [| k]; simpl in *.
    + injection Hk as <-. exists b. auto.
    + apply IH, Hk.
Qed.

(** X17: [make_figure] raises in one case only: the click carries points
    and the first of them has no ['customdata']; it then raises
    [KeyError('customdata')].  The subscripts it takes from the scan never
    raise an [IndexError]. *)
Theorem make_figure_raises (threshold : R) (clickData : option click_data)
    (preset : string) (g : globals) (e : exn) :
  fst (make_figure threshold clickData preset g) = Raise e <->
  e = KeyError "customdata" /\
  exists p ps, clicked_points clickData = p :: ps /\ customdata p = None.
Proof.
  destruct (make_figure_eq threshold g) as (traces & _ & E).
  rewrite E. cbn [fst]. unfold respond.
  destruct (clicked_points clickData) as [| p ps].
  - split.
    + destruct (preset =? "default")%string; [discriminate |].
      destruct (lookup preset cams); discriminate.
    + intros (_ & p & ps & H & _). discriminate.
  - destruct (customdata p) as [pid |] eqn:Ec.
    + split.
      * destruct (find _ _); discriminate.
      * intros (_ & p' & ps' & H & Hc). injection H as <- _.
        rewrite Ec in Hc. discriminate.
    + split.
      * intros H. injection H as <-. split; [reflexivity |].
        exists p, ps. auto.
      * intros [-> _]. reflexivity.
Qed.

Lemma make_figure_raises_witness :
  fst (make_figure 100
         (Some {| points := Some [ {| customdata := None |} ] |})
         "top" {| all_sats := [sat_a] |})
  = Raise (KeyError "customdata").
Proof.
  apply (proj2 (make_figure_raises 100
                  (Some {| points := Some [ {| customdata := None |} ] |})
                  "top" {| all_sats := [sat_a] |} (KeyError "customdata"))).
  split; [reflexivity |].
  exists {| customdata := None |}, []. split; reflexivity.
Defined.

(** X18: a figure that is returned shows the population as the update
    left it, not as it was: after the Earth come the markers of the
    satellites of type LEO and then those of type GEO, with the updated
    positions and the ids as customdata; then one trace per link of the
    scan on the updated population, and one more trace when the info names
    a selected satellite. *)
Theorem make_figure_layout (threshold : R) (clickData : option click_data)
    (preset : string) (g : globals) (fig : figure) (inf : info) :
  fst (make_figure threshold clickData preset g) = Ok (fig, inf) ->
  let sats := update_positions (all_sats g) (np.radians 0.5) in
  firstn 3 (data fig)
  = [earth_surface;
     markers (filter (fun s => (sat_type s =? "LEO")%string) sats)
             "yellow" "LEO Satellites";
     markers (filter (fun s => (sat_type s =? "GEO")%string) sats)
             "red" "GEO Satellites"] /\
  length (data fig)
  = (3 + length (detect_collisions sats threshold)
     + match inf with info_satellite _ _ _ => 1 | info_prompt => 0 end)%nat.
Proof.
  intros H sats.
  destruct (make_figure_eq threshold g) as (traces & Hall & E).
  fold sats in Hall, E. rewrite E in H. cbn [fst] in H.
  apply Forall2_length in Hall. rewrite Hall.
  apply respond_data in H.
  destruct H as [[-> Hd] | (p & ps & pid & sat & _ & _ & _ & -> & Hd & _)];
    rewrite Hd; cbn [plain_figure data]; split;
    try reflexivity; rewrite ?length_app; simpl; lia.
Qed.

Lemma make_figure_layout_witness :
  length (data (plain_figure
                  (update_positions [sat_a] (np.radians 0.5)) []))
  = (3 + length (detect_collisions
                   (update_positions [sat_a] (np.radians 0.5)) 100)
     + 0)%nat.
Proof.
  apply (proj2 (make_figure_layout 100 None "default"
                  {| all_sats := [sat_a] |}
                  (plain_figure
                     (update_positions [sat_a] (np.radians 0.5)) [])
                  info_prompt eq_refl)).
Defined.

(** X19: the trace that follows the three fixed ones at offset [k] is the
    line for the [k]-th link of the scan: it joins the updated positions of
    the two satellites the link names. *)
Theorem make_figure_links (threshold : R) (clickData : option click_data)
    (preset : string) (g : globals) (fig : figure) (inf : info)
    (k i j : nat) :
  fst (make_figure threshold clickData preset g) = Ok (fig, inf) ->
  let sats := update_positions (all_sats g) (np.radians 0.5) in
  nth_error (detect_collisions sats threshold) k = Some (i, j) ->
  exists a b,
    nth_error sats i = Some a /\ nth_error sats j = Some b /\
    nth_error (data fig) (3 + k) = Some (link_trace a b).
Proof.
  intros H sats Hk.
  destruct (make_figure_eq threshold g) as (traces & Hall & E).
  fold sats in Hall, E. rewrite E in H. cbn [fst] in H.
  destruct (Forall2_nth_error _ _ _ _ _ Hall Hk)
    as (tr & Htr & a & b & Ha & Hb & ->).
  exists a, b. split; [exact Ha | split; [exact Hb |]].
  assert (Hbase : nth_error (data (plain_figure sats traces)) (3 + k)
                  = Some (link_trace a b)) by exact Htr.
  apply respond_data in H.
  destruct H as [[_ Hd] | (p & ps & pid & sat & _ & _ & _ & _ & Hd & _)];
    rewrite Hd; [exact Hbase |].
  rewrite nth_error_app1; [exact Hbase |].
  apply nth_error_Some. rewrite Hbase. discriminate.
Qed.

Lemma make_figure_links_witness :
  exists fig inf a b,
    fst (make_figure 1 None "default" {| all_sats := [sat_a; sat_b] |})
    = Ok (fig, inf) /\
    nth_error (update_positions [sat_a; sat_b] (np.radians 0.5)) 0
    = Some a /\
    nth_error (update_positions [sat_a; sat_b] (np.radians 0.5)) 1
    = Some b /\
    nth_error (data fig) 3 = Some (link_trace a b).
Proof.
  destruct (make_figure_eq 1 {| all_sats := [sat_a; sat_b] |})
    as (traces & _ & E).
  assert (H : fst (make_figure 1 None "default"
                     {| all_sats := [sat_a; sat_b] |})
              = Ok (plain_figure
                      (update_positions [sat_a; sat_b] (np.radians 0.5))
                      traces, info_prompt))
    by (rewrite E; reflexivity).
  assert (Hk : nth_error
                 (detect_collisions
                    (update_positions [sat_a; sat_b] (np.radians 0.5)) 1) 0
               = Some (0, 1)%nat).
  { rewrite detect_collisions_update.
    - rewrite detect_coincident. reflexivity.
    - constructor; [exact sat_a_derived |].
      constructor; [| constructor].
      unfold position_derived. simpl. rewrite sin_0, cos_0.
      repeat split; ring. }
  destruct (make_figure_links 1 None "default"
              {| all_sats := [sat_a; sat_b] |} _ _ 0 0 1 H Hk)
    as (a & b & Ha & Hb & Hd).
  exists (plain_figure (update_positions [sat_a; sat_b] (np.radians 0.5))
                       traces), info_prompt, a, b.
  auto.
Defined.

(** ** The click and the preset *)

(** X20: a click that carries points takes the place of the preset: with
    such a click the call returns, or raises, the same for every preset. *)
Theorem click_overrides_preset (threshold : R)
    (clickData : option click_data) (preset1 preset2 : string)
    (g : globals) :
  clicked_points clickData <> [] ->
  make_figure threshold clickData preset1 g
  = make_figure threshold clickData preset2 g.
Proof.
  intros Hc. destruct (make_figure_eq threshold g) as (traces & _ & E).
  rewrite !E. unfold respond.
  destruct (clicked_points clickData); [contradiction | reflexivity].
Qed.

Lemma click_overrides_preset_witness :
  make_figure 100 (Some {| points := Some [ {| customdata := None |} ] |})
              "top" {| all_sats := [sat_a] |}
  = make_figure 100 (Some {| points := Some [ {| customdata := None |} ] |})
                "side" {| all_sats := [sat_a] |}.
Proof.
  apply (click_overrides_preset 100
           (Some {| points := Some [ {| customdata := None |} ] |})
           "top" "side" {| all_sats := [sat_a] |}).
  discriminate.
Defined.

(** X21: without clicked points the call returns, and the preset decides
    the camera and nothing else: the traces and the info are those of the
    preset ['default'], which sets no camera; the camera is the one [cams]
    holds for the preset, and none when it holds none. *)
Theorem preset_sets_camera_only (threshold : R)
    (clickData : option click_data) (preset : string) (g : globals) :
  clicked_points clickData = [] ->
  exists fig0 g',
    make_figure threshold clickData "default" g
    = (Ok (fig0, info_prompt), g') /\
    scene_camera fig0 = None /\
    make_figure threshold clickData preset g
    = (Ok ({| data := data fig0;
              scene_camera := if (preset =? "default")%string then None
                              else lookup preset cams |},
           info_prompt), g').
Proof.
  intros Hc. destruct (make_figure_eq threshold g) as (traces & _ & E).
  do 2 eexists. rewrite !E. unfold respond. rewrite Hc.
  split; [reflexivity | split; [reflexivity |]].
  destruct (preset =? "default")%string; [reflexivity |].
  destruct (lookup preset cams); reflexivity.
Qed.

Lemma preset_sets_camera_only_witness :
  exists fig0 g',
    make_figure 100 None "default" {| all_sats := [sat_a] |}
    = (Ok (fig0, info_prompt), g') /\
    scene_camera fig0 = None /\
    make_figure 100 None "top" {| all_sats := [sat_a] |}
    = (Ok ({| data := data fig0;
              scene_camera := if ("top" =? "default")%string then None
                              else lookup "top" cams |},
           info_prompt), g').
Proof.
  apply (preset_sets_camera_only 100 None "top" {| all_sats := [sat_a] |}).
  reflexivity.
Defined.

Lemma lookup_unknown (preset : string) :
  preset <> "top" -> preset <> "equatorial" -> preset <> "side" ->
  lookup preset cams = None.
Proof.
  intros H1 H2 H3. unfold cams. cbn [lookup].
  destruct (String.eqb_spec "top" preset) as [E | _];
    [symmetry in E; contradiction |].
  destruct (String.eqb_spec "equatorial" preset) as [E | _];
    [symmetry in E; contradiction |].
  destruct (String.eqb_spec "side" preset) as [E | _];
    [symmetry in E; contradiction |].
  reflexivity.
Qed.

(** X22: a preset that is none of ['top'], ['equatorial'] and ['side'] is
    treated as ['default']: the call gives the same result, with or without
    a click. *)
Theorem unknown_preset_is_default (threshold : R)
    (clickData : option click_data) (preset : string) (g : globals) :
  preset <> "top" -> preset <> "equatorial" -> preset <> "side" ->
  make_figure threshold clickData preset g
  = make_figure threshold clickData "default" g.
Proof.
  intros H1 H2 H3. destruct (make_figure_eq threshold g) as (traces & _ & E).
  rewrite !E. unfold respond.
  destruct (clicked_points clickData); [| reflexivity].
  rewrite (lookup_unknown preset H1 H2 H3).
  destruct (preset =? "default")%string; reflexivity.
Qed.

Lemma unknown_preset_is_default_witness :
  make_figure 100 None "front" {| all_sats := [sat_a] |}
  = make_figure 100 None "default" {| all_sats := [sat_a] |}.
Proof.
  apply (unknown_preset_is_default 100 None "front"
                                   {| all_sats := [sat_a] |});
    discriminate.
Defined.

Lemma find_id_none (pid : string) (sats : list satellite) :
  (forall s, In s sats -> sat_id s <> pid) ->
  find (fun s => (sat_id s =? pid)%string) sats = None.
Proof.
  induction sats as [| s sats IH]; intros H; simpl.
  - reflexivity.
  - destruct (String.eqb_spec (sat_id s) pid) as [E | _].
    + exfalso. apply (H s); [left; reflexivity | exact E].
    + apply IH. intros s' Hs'. apply H. right. exact Hs'.
Qed.

Lemma update_positions_In_id (sats : list satellite) (dphi : R)
    (s' : satellite) :
  In s' (update_positions sats dphi) ->
  exists s, In s sats /\ sat_id s = sat_id s' /\ sat_type s = sat_type s' /\
            sat_r s = sat_r s' /\ s' = advanced s dphi.
Proof.
  rewrite update_positions_map. intros H. apply in_map_iff in H.
  destruct H as (s & <- & Hs). exists s. repeat split; auto.
Qed.

(** X23: a click whose customdata is the id of no satellite selects
    nothing and still hides the preset: the call returns what it returns
    with no click and the preset ['default']. *)
Theorem click_on_unknown_id (threshold : R) (clickData : option click_data)
    (preset : string) (g : globals) (p : point) (ps : list point)
    (pid : string) :
  clicked_points clickData = p :: ps ->
  customdata p = Some pid ->
  (forall s, In s (all_sats g) -> sat_id s <> pid) ->
  make_figure threshold clickData preset g
  = make_figure threshold None "default" g.
Proof.
  intros Hc Hp Hid. destruct (make_figure_eq threshold g) as (traces & _ & E).
  rewrite !E. unfold respond. rewrite Hc, Hp. cbn [clicked_points].
  rewrite find_id_none; [reflexivity |].
  intros s' Hs'. apply update_positions_In_id in Hs'.
  destruct Hs' as (s & Hs & <- & _). apply Hid, Hs.
Qed.

Lemma click_on_unknown_id_witness :
  make_figure 100
    (Some {| points := Some [ {| customdata := Some "GEO_9" |} ] |})
    "top" {| all_sats := [sat_a] |}
  = make_figure 100 None "default" {| all_sats := [sat_a] |}.
Proof.
  apply (click_on_unknown_id 100
           (Some {| points := Some [ {| customdata := Some "GEO_9" |} ] |})
           "top" {| all_sats := [sat_a] |}
           {| customdata := Some "GEO_9" |} [] "GEO_9").
  - reflexivity.
  - reflexivity.
  - intros s [<- | []]. discriminate.
Defined.

(** ** The selected satellite *)

Lemma find_first {A} (f : A -> bool) (l : list A) (k : nat) (x : A) :
  nth_error l k = Some x -> f x = true ->
  (forall k' y, (k' < k)%nat -> nth_error l k' = Some y -> f y = false) ->
  find f l = Some x.
Proof.
  revert k. induction l as [| a l IH]; intros k Hk Hx Hfirst.
  - destruct k; discriminate.
  - destruct k as [| k]; simpl in *.
    + injection Hk as ->. rewrite Hx. reflexivity.
    + rewrite (Hfirst 0%nat a) by (lia || reflexivity).
      apply (IH k Hk Hx). intros k' y Hk' Hy.
      apply (Hfirst (S k') y); [lia | exact Hy].
Qed.

Lemma find_in_updated (sats0 : list satellite) (dphi : R) (pid : string)
    (k : nat) (s : satellite) :
  nth_error sats0 k = Some s ->
  sat_id s = pid ->
  (forall k' s', (k' < k)%nat -> nth_error sats0 k' = Some s' ->
                 sat_id s' <> pid) ->
  nth_error (update_positions sats0 dphi) k = Some (advanced s dphi) /\
  find (fun s => (sat_id s =? pid)%string) (update_positions sats0 dphi)
  = Some (advanced s dphi).
Proof.
  intros Hk Hid Hfirst.
  assert (Hk' : nth_error (update_positions sats0 dphi) k
                = Some (advanced s dphi)).
  { rewrite update_positions_map, nth_error_map, Hk. reflexivity. }
  split; [exact Hk' |].
  apply (find_first _ _ k _ Hk').
  - apply String.eqb_eq. exact Hid.
  - intros k' y Hlt Hy. apply String.eqb_neq.
    rewrite update_positions_map, nth_error_map in Hy.
    destruct (nth_error sats0 k') as [y0 |] eqn:Ey; [| discriminate].
    injection Hy as <-. apply (Hfirst k' y0 Hlt Ey).
Qed.

(** X24: a click whose customdata is an id selects the first satellite of
    the population, in list order, that has this id: the info gives its
    id, its type and its radius less [EARTH_RADIUS]; the camera is set on
    its updated position and the last trace of the figure marks it. *)
Theorem click_selects_first_match (threshold : R)
    (clickData : option click_data) (preset : string) (g : globals)
    (p : point) (ps : list point) (pid : string) (k : nat) (s : satellite) :
  clicked_points clickData = p :: ps ->
  customdata p = Some pid ->
  nth_error (all_sats g) k = Some s ->
  sat_id s = pid ->
  (forall k' s', (k' < k)%nat -> nth_error (all_sats g) k' = Some s' ->
                 sat_id s' <> pid) ->
  exists fig s',
    nth_error (update_positions (all_sats g) (np.radians 0.5)) k = Some s' /\
    fst (make_figure threshold clickData preset g)
    = Ok (fig, info_satellite pid (sat_type s) (sat_r s - EARTH_RADIUS)) /\
    scene_camera fig = Some (camera_on s') /\
    last (data fig) earth_surface = selected_trace s'.
Proof.
  intros Hc Hp Hk Hid Hfirst.
  destruct (make_figure_eq threshold g) as (traces & _ & E).
  destruct (find_in_updated (all_sats g) (np.radians 0.5) pid k s
              Hk Hid Hfirst) as [Hk' Hfind].
  eexists. exists (advanced s (np.radians 0.5)). split; [exact Hk' |].
  rewrite E. unfold respond. rewrite Hc, Hp, Hfind. cbn [fst].
  split; [| split].
  - subst pid. reflexivity.
  - reflexivity.
  - cbn [data]. apply last_last.
Qed.

Lemma click_selects_first_match_witness :
  exists fig s',
    nth_error (update_positions [sat_a; sat_b] (np.radians 0.5)) 1
    = Some s' /\
    fst (make_figure 100
           (Some {| points := Some [ {| customdata := Some "LEO_2" |} ] |})
           "top" {| all_sats := [sat_a; sat_b] |})
    = Ok (fig, info_satellite "LEO_2" (sat_type sat_b)
                              (sat_r sat_b - EARTH_RADIUS)) /\
    scene_camera fig = Some (camera_on s') /\
    last (data fig) earth_surface = selected_trace s'.
Proof.
  apply (click_selects_first_match 100
           (Some {| points := Some [ {| customdata := Some "LEO_2" |} ] |})
           "top" {| all_sats := [sat_a; sat_b] |}
           {| customdata := Some "LEO_2" |} [] "LEO_2" 1 sat_b).
  - reflexivity.
  - reflexivity.
  - reflexivity.
  - reflexivity.
  - intros [| k'] s' Hlt Hs'; [| lia].
    injection Hs' as <-. discriminate.
Defined.

Lemma camera_on_advanced (s : satellite) (dphi : R) :
  0 < sat_r s ->
  let cam := camera_on (advanced s dphi) in
  np.linalg_norm (eye_x cam, eye_y cam, eye_z cam) = 3.
Proof.
  intros Hr cam. unfold cam, camera_on.
  cbn [advanced eye_x eye_y eye_z sat_x sat_y sat_z sat_r].
  set (ph := py_mod (sat_phi s + dphi) (2 * PI)).
  replace (sat_r s * sin (sat_theta s) * cos ph / sat_r s * 3)
    with (3 * sin (sat_theta s) * cos ph) by (field; lra).
  replace (sat_r s * sin (sat_theta s) * sin ph / sat_r s * 3)
    with (3 * sin (sat_theta s) * sin ph) by (field; lra).
  replace (sat_r s * cos (sat_theta s) / sat_r s * 3)
    with (3 * cos (sat_theta s)) by (field; lra).
  apply norm_spherical. lra.
Qed.

(** X25: where every radius is positive, the camera set for a selected
    satellite has its eye at distance 3 from the centre, in the direction
    of the satellite: whenever the info names a satellite, the figure has a
    camera and the norm of its eye is 3. *)
Theorem selected_camera_distance (threshold : R)
    (clickData : option click_data) (preset : string) (g : globals)
    (fig : figure) (id type : string) (altitude : R) :
  Forall (fun s => 0 < sat_r s) (all_sats g) ->
  fst (make_figure threshold clickData preset g)
  = Ok (fig, info_satellite id type altitude) ->
  exists cam,
    scene_camera fig = Some cam /\
    np.linalg_norm (eye_x cam, eye_y cam, eye_z cam) = 3.
Proof.
  intros Hr H. destruct (make_figure_eq threshold g) as (traces & _ & E).
  rewrite E in H. cbn [fst] in H. apply respond_data in H.
  destruct H as [[H _] | (p & ps & pid & sat & _ & _ & Hf & _ & _ & Hcam)];
    [discriminate |].
  exists (camera_on sat). split; [exact Hcam |].
  apply find_some in Hf. destruct Hf as [Hin _].
  apply update_positions_In_id in Hin.
  destruct Hin as (s & Hs & _ & _ & _ & ->).
  apply camera_on_advanced.
  rewrite Forall_forall in Hr. apply Hr, Hs.
Qed.

Lemma selected_camera_distance_witness :
  exists fig cam,
    fst (make_figure 100
           (Some {| points := Some [ {| customdata := Some "LEO_1" |} ] |})
           "default" {| all_sats := [sat_a] |})
    = Ok (fig, info_satellite "LEO_1" "LEO" (8371 - EARTH_RADIUS)) /\
    scene_camera fig = Some cam /\
    np.linalg_norm (eye_x cam, eye_y cam, eye_z cam) = 3.
Proof.
  assert (H : fst (make_figure 100
                     (Some {| points :=
                                Some [ {| customdata := Some "LEO_1" |} ] |})
                     "default" {| all_sats := [sat_a] |})
              = Ok ({| data :=
                         data (plain_figure
                                 (update_positions [sat_a] (np.radians 0.5))
                                 [])
                         ++ [selected_trace
                               (advanced sat_a (np.radians 0.5))];
                       scene_camera :=
                         Some (camera_on
                                 (advanced sat_a (np.radians 0.5))) |},
                    info_satellite "LEO_1" "LEO" (8371 - EARTH_RADIUS)))
    by reflexivity.
  assert (Hr : Forall (fun s => 0 < sat_r s)
                      (all_sats {| all_sats := [sat_a] |}))
    by (constructor; [simpl; lra | constructor]).
  destruct (selected_camera_distance _ _ _ _ _ _ _ _ Hr H)
    as (cam & Hc & Hn).
  eexists. exists cam. split; [exact H |]. split; [exact Hc | exact Hn].
Defined.

(** ** Figures of a run *)

Lemma NoDup_ids_first (l : list satellite) (k : nat) (s : satellite) :
  NoDup (map sat_id l) -> nth_error l k = Some s ->
  forall k' s', (k' < k)%nat -> nth_error l k' = Some s' ->
                sat_id s' <> sat_id s.
Proof.
  intros Hnd Hk k' s' Hlt Hk' Heq.
  assert (Hlen : (k' < length (map sat_id l))%nat).
  { rewrite length_map. apply nth_error_Some. rewrite Hk'. discriminate. }
  pose proof (proj1 (NoDup_nth_error (map sat_id l)) Hnd k' k Hlen) as H.
  rewrite !nth_error_map, Hk, Hk' in H. simpl in H.
  rewrite Heq in H. specialize (H eq_refl). lia.
Qed.

Lemma run_nth (g : rng) (dphis : list R) (k : nat) (s : satellite) :
  nth_error (advance_many (created g) dphis) k = Some s ->
  (k < 100)%nat /\
  sat_type s = (if (k <? 50)%nat then "LEO" else "GEO") /\
  sat_r s = EARTH_RADIUS
            + (if (k <? 50)%nat then LEO_ALTITUDE else GEO_ALTITUDE).
Proof.
  intros Hs.
  assert (Hf : nth_error (map frame (created g)) k = Some (frame s)).
  { rewrite <- (advance_many_frame dphis (created g)).
    apply map_nth_error, Hs. }
  rewrite nth_error_map in Hf.
  destruct (nth_error (created g) k) as [s0 |] eqn:E; [| discriminate].
  cbn [option_map] in Hf. unfold frame in Hf.
  injection Hf as _ Hty _ Hr. rewrite <- Hty, <- Hr.
  apply created_nth in E. destruct E as [[Hk ->] | [Hk ->]].
  - apply Nat.ltb_lt in Hk as Hb. rewrite Hb. repeat split. lia.
  - assert (Hb : (k <? 50)%nat = false) by (apply Nat.ltb_ge; lia).
    rewrite Hb. repeat split. lia.
Qed.

Lemma run_length (g : rng) (dphis : list R) :
  length (advance_many (created g) dphis) = 100%nat.
Proof.
  transitivity (length (map frame (advance_many (created g) dphis))).
  - symmetry. apply length_map.
  - rewrite advance_many_frame, length_map. unfold created.
    rewrite length_app, !length_map, !length_seq. reflexivity.
Qed.

(** X26: in a run, a click on the marker of any satellite selects that
    satellite: when the first clicked point carries the id of the satellite
    at index [k], the call returns and its info gives that id, the type LEO
    and the altitude [LEO_ALTITUDE] for the first fifty indices, the type
    GEO and the altitude [GEO_ALTITUDE] for the others. *)
Theorem click_in_run (g : rng) (fs : list firing) (threshold : R)
    (preset : string) (ps : list point) (k : nat) :
  (k < 100)%nat ->
  exists gl g' s fig altitude,
    module_init g = (Ok gl, g') /\
    nth_error (all_sats (serve fs gl)) k = Some s /\
    fst (make_figure threshold
           (Some {| points :=
                      Some ({| customdata := Some (sat_id s) |} :: ps) |})
           preset (serve fs gl))
    = Ok (fig, info_satellite (sat_id s)
                              (if (k <? 50)%nat then "LEO" else "GEO")
                              altitude) /\
    altitude = (if (k <? 50)%nat then LEO_ALTITUDE else GEO_ALTITUDE).
Proof.
  intros Hk. rewrite module_init_eq.
  exists {| all_sats := created g |}. eexists.
  set (gl := {| all_sats := created g |}).
  assert (Hpop : all_sats (serve fs gl)
                 = advance_many (created g)
                                (map (fun _ => np.radians 0.5) fs))
    by apply serve_all_sats.
  set (ds := map (fun _ => np.radians 0.5) fs) in Hpop.
  destruct (nth_error (all_sats (serve fs gl)) k) as [s |] eqn:Es.
  2:{ apply nth_error_None in Es. rewrite Hpop, run_length in Es. lia. }
  exists s.
  assert (Hnd : NoDup (map sat_id (all_sats (serve fs gl)))).
  { rewrite Hpop, advance_many_ids. apply created_ids_NoDup. }
  destruct (find_in_updated (all_sats (serve fs gl)) (np.radians 0.5)
              (sat_id s) k s Es eq_refl (NoDup_ids_first _ k s Hnd Es))
    as [_ Hfind].
  destruct (make_figure_eq threshold (serve fs gl)) as (traces & _ & E).
  rewrite Hpop in Es. apply run_nth in Es. destruct Es as (_ & Hty & Hr).
  do 2 eexists. split; [reflexivity |]. split; [reflexivity |].
  rewrite E. unfold respond. cbn [clicked_points points customdata fst].
  rewrite Hfind. cbn [advanced sat_id sat_type sat_r]. rewrite Hty.
  split; [reflexivity |].
  rewrite Hr. destruct (k <? 50)%nat; ring.
Qed.

Lemma click_in_run_witness :
  exists gl g' s fig altitude,
    module_init zero_rng = (Ok gl, g') /\
    nth_error (all_sats (serve [] gl)) 7 = Some s /\
    fst (make_figure 100
           (Some {| points :=
                      Some ({| customdata := Some (sat_id s) |} :: []) |})
           "default" (serve [] gl))
    = Ok (fig, info_satellite (sat_id s)
                              (if (7 <? 50)%nat then "LEO" else "GEO")
                              altitude) /\
    altitude = (if (7 <? 50)%nat then LEO_ALTITUDE else GEO_ALTITUDE).
Proof. apply (click_in_run zero_rng [] 100 "default" [] 7). lia. Defined.

Lemma filter_types_split (n : nat) (l : list satellite) :
  (forall k s, nth_error l k = Some s ->
               sat_type s = (if (k <? n)%nat then "LEO" else "GEO")) ->
  filter (fun s => (sat_type s =? "LEO")%string) l = firstn n l /\
  filter (fun s => (sat_type s =? "GEO")%string) l = skipn n l.
Proof.
  revert n. induction l as [| a l IH]; intros n H.
  - rewrite firstn_nil, skipn_nil. split; reflexivity.
  - pose proof (H 0%nat a eq_refl) as Ha.
    destruct n as [| n].
    + destruct (IH 0%nat) as [IH1 IH2].
      { intros k s Hs. apply (H (S k) s Hs). }
      cbn [filter firstn skipn]. simpl in Ha. rewrite Ha. cbn.
      rewrite IH1, IH2. destruct l; split; reflexivity.
    + destruct (IH n) as [IH1 IH2].
      { intros k s Hs. apply (H (S k) s Hs). }
      cbn [filter firstn skipn]. simpl in Ha. rewrite Ha. cbn.
      rewrite IH1, IH2. split; reflexivity.
Qed.

(** X27: in a run every figure draws each satellite once: of the hundred
    satellites, as the update left them, the yellow trace holds the first
    fifty and the red trace the last fifty, in population order. *)
Theorem run_figure_markers (g : rng) (fs : list firing) (threshold : R)
    (clickData : option click_data) (preset : string) :
  exists gl g',
    module_init g = (Ok gl, g') /\
    forall fig inf,
      fst (make_figure threshold clickData preset (serve fs gl))
      = Ok (fig, inf) ->
      let sats := update_positions (all_sats (serve fs gl))
                                   (np.radians 0.5) in
      length sats = 100%nat /\
      nth_error (data fig) 1
      = Some (markers (firstn 50 sats) "yellow" "LEO Satellites") /\
      nth_error (data fig) 2
      = Some (markers (skipn 50 sats) "red" "GEO Satellites").
Proof.
  rewrite module_init_eq. do 2 eexists. split; [reflexivity |].
  intros fig inf H sats.
  set (gl := {| all_sats := created g |}) in *.
  assert (Hpop : sats = advance_many (created g)
                          (map (fun _ => np.radians 0.5) fs
                           ++ [np.radians 0.5])).
  { unfold sats. rewrite serve_all_sats. unfold advance_many.
    rewrite fold_left_app. reflexivity. }
  destruct (filter_types_split 50 sats) as [Hleo Hgeo].
  { intros k s Hs. rewrite Hpop in Hs. apply run_nth in Hs. tauto. }
  split; [rewrite Hpop; apply run_length |].
  destruct (make_figure_eq threshold (serve fs gl)) as (traces & _ & E).
  fold sats in E. rewrite E in H. cbn [fst] in H.
  apply respond_data in H.
  destruct H as [[_ Hd] | (p & ps & pid & sat & _ & _ & _ & _ & Hd & _)];
    rewrite Hd; cbn [plain_figure data app nth_error];
    rewrite Hleo, Hgeo; split; reflexivity.
Qed.

Lemma run_figure_markers_witness :
  exists gl g' fig inf,
    module_init zero_rng = (Ok gl, g') /\
    fst (make_figure 100 None "default" (serve [] gl)) = Ok (fig, inf) /\
    length (update_positions (all_sats (serve [] gl)) (np.radians 0.5))
    = 100%nat /\
    nth_error (data fig) 1
    = Some (markers
              (firstn 50 (update_positions (all_sats (serve [] gl))
                                           (np.radians 0.5)))
              "yellow" "LEO Satellites") /\
    nth_error (data fig) 2
    = Some (markers
              (skipn 50 (update_positions (all_sats (serve [] gl))
                                          (np.radians 0.5)))
              "red" "GEO Satellites").
Proof.
  destruct (run_figure_markers zero_rng [] 100 None "default")
    as (gl & g' & Hinit & Hfig).
  destruct (make_figure_eq 100 (serve [] gl)) as (traces & _ & E).
  assert (H : fst (make_figure 100 None "default" (serve [] gl))
              = Ok (plain_figure
                      (update_positions (all_sats (serve [] gl))
                                        (np.radians 0.5)) traces,
                    info_prompt))
    by (rewrite E; reflexivity).
  exists gl, g'. do 2 eexists. split; [exact Hinit |].
  split; [exact H |]. exact (Hfig _ _ H).
Defined.

(** ** The module's own calls *)

(** X28: every vertex of the Earth mesh lies on the sphere of radius
    [EARTH_RADIUS]; the last row of the mesh is the first one again, so the
    surface closes; the first column is the north pole and the last column
    the south pole. *)
Theorem earth_mesh_sphere (i j : nat) :
  np.linalg_norm (mesh.xe i j, mesh.ye i j, mesh.ze i j) = EARTH_RADIUS /\
  (mesh.xe 49 j, mesh.ye 49 j, mesh.ze 49 j)
  = (mesh.xe 0 j, mesh.ye 0 j, mesh.ze 0 j) /\
  (mesh.xe i 0, mesh.ye i 0, mesh.ze i 0) = (0, 0, EARTH_RADIUS) /\
  (mesh.xe i 24, mesh.ye i 24, mesh.ze i 24) = (0, 0, - EARTH_RADIUS).
Proof.
  unfold mesh.xe, mesh.ye, mesh.ze, np.cos, np.sin.
  assert (Hu0 : forall j', mesh.u 0 j' = 0)
    by (intros j'; unfold mesh.u; simpl; lra).
  assert (Hu49 : forall j', mesh.u 49 j' = 2 * PI).
  { intros j'. unfold mesh.u, np.pi. rewrite INR_IZR_INZ.
    change (Z.of_nat 49) with 49%Z. lra. }
  assert (Hv0 : forall i', mesh.v i' 0 = 0)
    by (intros i'; unfold mesh.v; simpl; lra).
  assert (Hv24 : forall i', mesh.v i' 24 = PI).
  { intros i'. unfold mesh.v, np.pi. rewrite INR_IZR_INZ.
    change (Z.of_nat 24) with 24%Z. lra. }
  split; [| split; [| split]].
  - replace (EARTH_RADIUS * cos (mesh.u i j) * sin (mesh.v i j))
      with (EARTH_RADIUS * sin (mesh.v i j) * cos (mesh.u i j)) by ring.
    replace (EARTH_RADIUS * sin (mesh.u i j) * sin (mesh.v i j))
      with (EARTH_RADIUS * sin (mesh.v i j) * sin (mesh.u i j)) by ring.
    apply norm_spherical. unfold EARTH_RADIUS. lra.
  - rewrite Hu49, Hu0, cos_2PI, sin_2PI, cos_0, sin_0. reflexivity.
  - rewrite Hv0, sin_0, cos_0. repeat f_equal; ring.
  - rewrite Hv24, sin_PI, cos_PI. repeat f_equal; ring.
Qed.

(** X29: importing the module never raises, and the figure it builds for
    the layout has already moved the population: the call
    [make_figure(INITIAL_THRESHOLD, None, 'default')] on the population as
    created returns a figure without camera and the prompt, with one line
    per link of the created population after the three fixed traces, and
    leaves the population advanced by half a degree. *)
Theorem layout_figure (g : rng) :
  exists gl g' fig,
    module_init g = (Ok gl, g') /\
    cursor g' = (cursor g + 200)%nat /\
    make_figure INITIAL_THRESHOLD None "default" gl
    = (Ok (fig, info_prompt),
       {| all_sats := update_positions (all_sats gl) (np.radians 0.5) |}) /\
    scene_camera fig = None /\
    length (data fig)
    = (3 + length (detect_collisions (all_sats gl) INITIAL_THRESHOLD))%nat.
Proof.
  rewrite module_init_eq.
  destruct (make_figure_eq INITIAL_THRESHOLD {| all_sats := created g |})
    as (traces & Hall & E).
  do 3 eexists. split; [reflexivity |]. split.
  { cbn [cursor]. change (Z.to_nat NUM_LEO) with 50%nat.
    change (Z.to_nat NUM_GEO) with 50%nat. lia. }
  rewrite E. unfold respond. cbn [clicked_points String.eqb].
  split; [reflexivity |]. split; [reflexivity |].
  apply Forall2_length in Hall. cbn [all_sats] in Hall.
  rewrite detect_collisions_update in Hall by apply created_derived.
  cbn [plain_figure data all_sats]. rewrite Hall, length_app. reflexivity.
Qed.
